(** * hass_remote_management: a shallow embedding of [HASSRemoteManagement]

    The program opens one SSH connection to a Home Assistant host, runs a
    fixed sequence of remote commands, downloads the resulting archive over
    SFTP and writes the commands' output to a log file.

    The embedding follows [hass_remote_management.py] function by function.
    A Python method becomes a computation in a state-and-exception monad
    [M]: the state holds the instance ([self], whose attributes may be absent)
    and the local world (clock, working directory, console, the requests sent
    to the remote side).  The remote host, which the program only talks to
    through paramiko, is a parameter: a record [Host] of answers. *)

From stdpp Require Import gmap strings list fin_maps pretty.
From Stdlib Require Import Ascii ZArith Lia.

Local Open Scope Z_scope.

(** ** Strings *)

(** The characters the source writes as escapes. *)
Definition LF : ascii := "010"%char.
Definition CR : ascii := "013"%char.
Definition DQUOTE : ascii := "034"%char.

Definition chr (a : ascii) : string := String a EmptyString.

Module Str.

(** [s.rstrip(chars)] for a one-character [chars]: every trailing
    occurrence of the character goes, not only the last one. *)
Fixpoint rstrip (c : ascii) (s : string) : string :=
  match s with
  | EmptyString => EmptyString
  | String a s' =>
      match rstrip c s' with
      | EmptyString => if decide (a = c) then EmptyString else chr a
      | r => String a r
      end
  end.

(** [s.split(sep)] for a one-character separator: the fields between the
    occurrences of [sep]; always at least one field. *)
Fixpoint split (sep : ascii) (s : string) : list string :=
  match s with
  | EmptyString => [EmptyString]
  | String a s' =>
      if decide (a = sep) then EmptyString :: split sep s'
      else match split sep s' with
           | [] => [chr a]
           | f :: fs => String a f :: fs
           end
  end.

(** [s.endswith(suffix)]. *)
Fixpoint endswith (s suffix : string) : bool :=
  if decide (s = suffix) then true
  else match s with
       | EmptyString => false
       | String _ s' => endswith s' suffix
       end.

(** [sub in s] for strings. *)
Definition contains (s sub : string) : Prop :=
  ∃ before after, s = before +:+ sub +:+ after.

End Str.

(** ** Exceptions *)

Inductive exn : Type :=
| NameError (name : string)
| AttributeError (attr : string)
| TypeError (msg : string)
| ValueError (msg : string)
| SystemExit (code : Z)
| OSError (msg : string)
| SSHException (msg : string)
| SSHExecException (msg : string).

(** [except SSHException] catches [SSHException] only: [SSHExecException]
    derives from [Exception] directly. *)
Definition is_SSHException (e : exn) : bool :=
  match e with SSHException _ => true | _ => false end.

(** ** The remote side *)

(** What the session asks of paramiko, in the order asked. *)
Inductive request : Type :=
| Connect (hostname username : string)
| ExecCommand (command : string)
| SftpGet (src dest : string)
| CloseClient.

Global Instance request_eq_dec : EqDecision request.
Proof. solve_decision. Defined.

(** The answers of the host.  Each may depend on everything asked before.
    - [connect_answer]: [None] when the connection is accepted;
    - [exec_answer]: the lines of the command's output stream, each as the
      channel file yields it, and the exit status, or the exception of
      [exec_command];
    - [get_answer]: the [(current, total)] pairs with which the transfer calls
      its callback, and the bytes of the file, or the exception of the
      transfer;
    - [close_answer]: [None] when [close] returns. *)
Record Host : Type := {
  connect_answer : list request → string → string → option exn;
  exec_answer : list request → string → exn + (list string * Z);
  get_answer : list request → string → exn + (list (Z * Z) * string);
  close_answer : list request → option exn;
}.

(** ** The instance *)

Record SSHClient : Type := { peer_hostname : string; peer_username : string }.

(** A [tqdm] bar: its attributes [total] and [n]. *)
Record tqdm : Type := { tqdm_total : Z; tqdm_n : Z }.

(** What [_progress_bar] can hold: [None], a bar, or whatever object a
    global name is bound to. *)
Inductive pyval : Type :=
| PNone
| PTqdm (bar : tqdm)
| PObject (name : string).

(** The attributes of a [HASSRemoteManagement] object; [None] is an attribute
    that was never assigned.  A [cached_property] stores its value in the
    instance under the property's own name: the three [_cache] fields. *)
Record Session : Type := {
  _hostname : option string;
  _username : option string;
  _progress_bar : option pyval;
  _progress_bar_last : option Z;
  _now_iso8601_cache : option string;
  _log_file_name_cache : option string;
  _ssh_client_cache : option SSHClient;
}.

(** The object as [object.__new__] leaves it. *)
Definition new_object : Session :=
  {| _hostname := None; _username := None; _progress_bar := None;
     _progress_bar_last := None; _now_iso8601_cache := None;
     _log_file_name_cache := None; _ssh_client_cache := None |}.

Definition set_hostname (v : string) (s : Session) : Session :=
  {| _hostname := Some v; _username := _username s;
     _progress_bar := _progress_bar s;
     _progress_bar_last := _progress_bar_last s;
     _now_iso8601_cache := _now_iso8601_cache s;
     _log_file_name_cache := _log_file_name_cache s;
     _ssh_client_cache := _ssh_client_cache s |}.

Definition set_username (v : string) (s : Session) : Session :=
  {| _hostname := _hostname s; _username := Some v;
     _progress_bar := _progress_bar s;
     _progress_bar_last := _progress_bar_last s;
     _now_iso8601_cache := _now_iso8601_cache s;
     _log_file_name_cache := _log_file_name_cache s;
     _ssh_client_cache := _ssh_client_cache s |}.

Definition set_progress_bar (v : pyval) (s : Session) : Session :=
  {| _hostname := _hostname s; _username := _username s;
     _progress_bar := Some v;
     _progress_bar_last := _progress_bar_last s;
     _now_iso8601_cache := _now_iso8601_cache s;
     _log_file_name_cache := _log_file_name_cache s;
     _ssh_client_cache := _ssh_client_cache s |}.

Definition set_progress_bar_last (v : Z) (s : Session) : Session :=
  {| _hostname := _hostname s; _username := _username s;
     _progress_bar := _progress_bar s;
     _progress_bar_last := Some v;
     _now_iso8601_cache := _now_iso8601_cache s;
     _log_file_name_cache := _log_file_name_cache s;
     _ssh_client_cache := _ssh_client_cache s |}.

Definition set_now_iso8601_cache (v : string) (s : Session) : Session :=
  {| _hostname := _hostname s; _username := _username s;
     _progress_bar := _progress_bar s;
     _progress_bar_last := _progress_bar_last s;
     _now_iso8601_cache := Some v;
     _log_file_name_cache := _log_file_name_cache s;
     _ssh_client_cache := _ssh_client_cache s |}.

Definition set_log_file_name_cache (v : string) (s : Session) : Session :=
  {| _hostname := _hostname s; _username := _username s;
     _progress_bar := _progress_bar s;
     _progress_bar_last := _progress_bar_last s;
     _now_iso8601_cache := _now_iso8601_cache s;
     _log_file_name_cache := Some v;
     _ssh_client_cache := _ssh_client_cache s |}.

Definition set_ssh_client_cache (v : SSHClient) (s : Session) : Session :=
  {| _hostname := _hostname s; _username := _username s;
     _progress_bar := _progress_bar s;
     _progress_bar_last := _progress_bar_last s;
     _now_iso8601_cache := _now_iso8601_cache s;
     _log_file_name_cache := _log_file_name_cache s;
     _ssh_client_cache := Some v |}.

(** ** The local world *)

Inductive level : Type := DEBUG | INFO | ERROR.

Definition level_no (l : level) : Z :=
  match l with DEBUG => 10 | INFO => 20 | ERROR => 40 end.

(** What reaches the terminal: records of [logger], the texts of [print] and
    the movements of the progress bar. *)
Inductive output : Type :=
| Record_ (lvl : level) (msg : string)
| Printed (text : string)
| BarCreated (total : Z)
| BarUpdate (amount : Z).

(** - [clock] and [ticks]: the [k]-th call of
      [datetime.datetime.now().isoformat()] returns [clock k];
    - [files]: the working directory, file name to content;
    - [requests]: what was asked of the remote side, oldest first;
    - [console]: what was shown, oldest first;
    - [logger_level]: the level of the module's [logger]. *)
Record World : Type := {
  clock : nat → string;
  ticks : nat;
  files : gmap string string;
  requests : list request;
  console : list output;
  logger_level : level;
}.

Definition set_ticks (v : nat) (w : World) : World :=
  {| clock := clock w; ticks := v; files := files w; requests := requests w;
     console := console w; logger_level := logger_level w |}.

Definition set_files (v : gmap string string) (w : World) : World :=
  {| clock := clock w; ticks := ticks w; files := v; requests := requests w;
     console := console w; logger_level := logger_level w |}.

Definition set_requests (v : list request) (w : World) : World :=
  {| clock := clock w; ticks := ticks w; files := files w; requests := v;
     console := console w; logger_level := logger_level w |}.

Definition set_console (v : list output) (w : World) : World :=
  {| clock := clock w; ticks := ticks w; files := files w;
     requests := requests w; console := v; logger_level := logger_level w |}.

Definition set_logger_level (v : level) (w : World) : World :=
  {| clock := clock w; ticks := ticks w; files := files w;
     requests := requests w; console := console w; logger_level := v |}.

Record State : Type := { self : Session; world : World }.

(** ** The monad of the program: state and exceptions *)

Definition M (A : Type) : Type := State → (exn + A) * State.

Global Instance M_ret : MRet M := λ A (a : A) st, (inr a, st).

Global Instance M_bind : MBind M := λ A B (f : A → M B) (m : M A) st,
  match m st with
  | (inl e, st') => (inl e, st')
  | (inr a, st') => f a st'
  end.

Definition raise {A : Type} (e : exn) : M A := λ st, (inl e, st).

(** [try: body finally: cleanup]. *)
Definition try_finally {A : Type} (body : M A) (cleanup : M unit) : M A :=
  λ st,
    match body st with
    | (inl e, st') =>
        match cleanup st' with
        | (inl e', st'') => (inl e', st'')
        | (inr _, st'') => (inl e, st'')
        end
    | (inr a, st') =>
        match cleanup st' with
        | (inl e', st'') => (inl e', st'')
        | (inr _, st'') => (inr a, st'')
        end
    end.

(** [try: body except SSHException as e: handler(e)]. *)
Definition try_except_SSHException {A : Type}
    (body : M A) (handler : exn → M A) : M A :=
  λ st,
    match body st with
    | (inl e, st') =>
        if is_SSHException e then handler e st' else (inl e, st')
    | r => r
    end.

Definition get_self : M Session := λ st, (inr (self st), st).
Definition get_world : M World := λ st, (inr (world st), st).

Definition modify_self (f : Session → Session) : M unit :=
  λ st, (inr tt, {| self := f (self st); world := world st |}).

Definition modify_world (f : World → World) : M unit :=
  λ st, (inr tt, {| self := self st; world := f (world st) |}).

(** [self.<name>] for a plain attribute: [AttributeError] when it was never
    assigned. *)
Definition getattr_self {A : Type}
    (name : string) (field : Session → option A) : M A :=
  s ← get_self;
  match field s with
  | Some v => mret v
  | None => raise (AttributeError name)
  end.

(** ** The library calls the methods make *)

(** [logger.<lvl>(msg)]: the module's logger has one stream handler and shows
    a record when its level is at least the logger's. *)
Definition log (lvl : level) (msg : string) : M unit :=
  w ← get_world;
  if bool_decide (level_no (logger_level w) ≤ level_no lvl)
  then modify_world (λ w, set_console (console w ++ [Record_ lvl msg]) w)
  else mret tt.

Definition logger_debug : string → M unit := log DEBUG.
Definition logger_info : string → M unit := log INFO.
(** [logger.exception] logs at level [ERROR]. *)
Definition logger_exception : string → M unit := log ERROR.
Definition logger_setLevel (lvl : level) : M unit :=
  modify_world (set_logger_level lvl).

(** [str(e)] for the exceptions that are logged. *)
Definition exn_str (e : exn) : string :=
  match e with
  | NameError name => "name '" +:+ name +:+ "' is not defined"
  | AttributeError attr => attr
  | TypeError msg | ValueError msg | OSError msg
  | SSHException msg | SSHExecException msg => msg
  | SystemExit code => pretty code
  end.

(** [print(text, end=ending)]. *)
Definition print (text ending : string) : M unit :=
  modify_world (λ w, set_console (console w ++ [Printed (text +:+ ending)]) w).

(** [datetime.datetime.now().isoformat()]. *)
Definition datetime_now_isoformat : M string :=
  w ← get_world;
  modify_world (set_ticks (S (ticks w)));;
  mret (clock w (ticks w)).

(** [open(name, "w+")]: the file is created, or truncated when it exists.
    The handle is the file's name. *)
Definition open_w_plus (name : string) : M string :=
  modify_world (λ w, set_files (<[name := EmptyString]> (files w)) w);;
  mret name.

(** [f.write(text)]: the text goes after what the file holds. *)
Definition file_write (f text : string) : M unit :=
  modify_world (λ w,
    set_files (<[f := default EmptyString (files w !! f) +:+ text]> (files w)) w).

Definition file_close (f : string) : M unit := mret tt.

(** [tqdm(total=total)]. *)
Definition tqdm_new (total : Z) : M tqdm :=
  modify_world (λ w, set_console (console w ++ [BarCreated total]) w);;
  mret {| tqdm_total := total; tqdm_n := 0 |}.

(** [bool(bar)] for a bar made with a [total]: [self.total > 0]. *)
Definition tqdm_bool (bar : tqdm) : bool := bool_decide (0 < tqdm_total bar).

(** Truth value of what [_progress_bar] holds. *)
Definition pyval_bool (v : pyval) : bool :=
  match v with
  | PNone => false
  | PTqdm bar => tqdm_bool bar
  | PObject _ => true
  end.

(** Truth value of an [int]. *)
Definition int_bool (z : Z) : bool := bool_decide (z ≠ 0).

(** ** Name resolution *)

(** The names bound in the module when a session is constructed from the
    [__main__] block, and the names of [builtins]. *)
Definition module_globals : list string :=
  String.words
    "__name__ __doc__ __package__ __loader__ __spec__ __file__ __builtins__
     argparse datetime logging contextmanager cached_property TextIO
     SFTPClient SSHClient SSHException tqdm HASS_REMOTE_MANAGEMENT_NAME logger
     SSHExecException HASSRemoteManagement parser mutually_exclusive args
     username host".

Definition builtins : list string :=
  String.words
    "abs aiter all anext any ascii bin bool breakpoint bytearray bytes callable
     chr classmethod compile complex copyright credits delattr dict dir divmod
     enumerate eval exec exit filter float format frozenset getattr globals
     hasattr hash help hex id input int isinstance issubclass iter len license
     list locals map max memoryview min next object oct open ord pow print
     property quit range repr reversed round set setattr slice sorted
     staticmethod str sum super tuple type vars zip __import__ __build_class__
     __debug__ __doc__ __loader__ __name__ __package__ __spec__ None True False
     Ellipsis NotImplemented BaseException BaseExceptionGroup Exception
     ExceptionGroup ArithmeticError AssertionError AttributeError
     BlockingIOError BrokenPipeError BufferError BytesWarning ChildProcessError
     ConnectionAbortedError ConnectionError ConnectionRefusedError
     ConnectionResetError DeprecationWarning EOFError EncodingWarning
     EnvironmentError FileExistsError FileNotFoundError FloatingPointError
     FutureWarning GeneratorExit IOError ImportError ImportWarning
     IndentationError IndexError InterruptedError IsADirectoryError KeyError
     KeyboardInterrupt LookupError MemoryError ModuleNotFoundError NameError
     NotADirectoryError NotImplementedError OSError OverflowError
     PendingDeprecationWarning PermissionError ProcessLookupError
     RecursionError ReferenceError ResourceWarning RuntimeError RuntimeWarning
     StopAsyncIteration StopIteration SyntaxError SyntaxWarning SystemError
     SystemExit TabError TimeoutError TypeError UnboundLocalError
     UnicodeDecodeError UnicodeEncodeError UnicodeError UnicodeTranslateError
     UnicodeWarning UserWarning ValueError Warning ZeroDivisionError".

(** Reading a name that is not local to the function: the module's globals,
    then the builtins, else [NameError]. *)
Definition load_global (name : string) : M pyval :=
  if bool_decide (name ∈ module_globals) then mret (PObject name)
  else if bool_decide (name = "None") then mret PNone
  else if bool_decide (name ∈ builtins) then mret (PObject name)
  else raise (NameError name).

(** ** class HASSRemoteManagement *)

Definition HASS_REMOTE_MANAGEMENT_NAME : string := "hass_remote_mgmt".
Definition LOG_FILE_BASE_NAME : string := HASS_REMOTE_MANAGEMENT_NAME.

(** [__init__]: two assignments, then the value of the name [_None]. *)
Definition __init__ (hostname username : string) : M unit :=
  modify_self (set_hostname hostname);;
  modify_self (set_username username);;
  v ← load_global "_None";
  modify_self (set_progress_bar v).

(** [_now_iso8601], a [cached_property]. *)
Definition _now_iso8601 : M string :=
  s ← get_self;
  match _now_iso8601_cache s with
  | Some v => mret v
  | None =>
      v ← datetime_now_isoformat;
      modify_self (set_now_iso8601_cache v);;
      mret v
  end.

(** [_log_file_name], a [cached_property]. *)
Definition _log_file_name : M string :=
  s ← get_self;
  match _log_file_name_cache s with
  | Some v => mret v
  | None =>
      now ← _now_iso8601;
      let v := LOG_FILE_BASE_NAME +:+ "." +:+ now +:+ ".log" in
      modify_self (set_log_file_name_cache v);;
      mret v
  end.

(** [with self._log_file() as f: body].  The context manager opens the file
    in mode [w+] and closes it in a [finally]. *)
Definition with_log_file {A : Type} (body : string → M A) : M A :=
  name ← _log_file_name;
  f ← open_w_plus name;
  try_finally (body f) (file_close f).

(** The loop of [_ssh_exec] over the lines of [stdout]. *)
Fixpoint write_lines (command f : string) (stdout : list string)
    (lines_count : nat) : M unit :=
  match stdout with
  | [] => mret tt
  | line :: rest =>
      let clean_line := Str.rstrip LF line in
      file_write f clean_line;;
      print ("Executing command " +:+ command +:+ ": " +:+ pretty lines_count)
            (chr CR);;
      write_lines command f rest (S lines_count)
  end.

(** [_scp_loading_bar], without the host: it talks to the bar only. *)
Definition _scp_loading_bar (current total : Z) : M unit :=
  bar ← getattr_self "_progress_bar" _progress_bar;
  (if negb (pyval_bool bar)
   then new_bar ← tqdm_new total;
        modify_self (set_progress_bar (PTqdm new_bar))
   else mret tt);;
  s ← get_self;
  let offset :=
    match _progress_bar_last s with
    | Some last => if int_bool last then current - last else current
    | None => current
    end in
  bar ← getattr_self "_progress_bar" _progress_bar;
  match bar with
  | PTqdm b =>
      (* tqdm.update(offset) *)
      modify_world (λ w, set_console (console w ++ [BarUpdate offset]) w);;
      modify_self (set_progress_bar
                     (PTqdm {| tqdm_total := tqdm_total b;
                               tqdm_n := tqdm_n b + offset |}))
  | PNone | PObject _ => raise (AttributeError "update")
  end;;
  modify_self (set_progress_bar_last current).

(** The callback invocations of one transfer, in order. *)
Fixpoint callbacks (calls : list (Z * Z)) : M unit :=
  match calls with
  | [] => mret tt
  | (current, total) :: rest =>
      _scp_loading_bar current total;;
      callbacks rest
  end.

(** The five f-strings of [backup], as functions of [self._now_iso8601]:
    the three commands and the two paths given to [_scp]. *)
Definition archive_command (now : string) : string :=
  "sudo tar cvf /tmp/homeassistant-" +:+ now
    +:+ ".back.tar /home/homeassistant/.homeassistant/".

Definition compress_command (now : string) : string :=
  "sudo bzip2 /tmp/homeassistant-" +:+ now +:+ ".back.tar".

Definition fetch_src (now : string) : string :=
  "/tmp/homeassistant-" +:+ now +:+ ".back.tar".

Definition fetch_dest (now : string) : string :=
  "homeassistant-" +:+ now +:+ ".back.tar.bz2".

Definition cleanup_command (now : string) : string :=
  "sudo rm /tmp/homeassistant-" +:+ now +:+ ".back.*".

(** [deploy]. *)
Definition deploy : M unit := logger_info "Starting deployment...".

Section Remote.

Variable host : Host.

(** [ssh_client.connect(hostname, username=username)]. *)
Definition connect (hostname username : string) : M SSHClient :=
  w ← get_world;
  modify_world (set_requests (requests w ++ [Connect hostname username]));;
  match connect_answer host (requests w) hostname username with
  | Some e => raise e
  | None =>
      mret {| peer_hostname := hostname; peer_username := username |}
  end.

(** [client.exec_command(command, get_pty=True)]: the lines of [stdout]
    and the value [stdout.channel.recv_exit_status()] will return. *)
Definition exec_command (client : SSHClient) (command : string)
  : M (list string * Z) :=
  w ← get_world;
  modify_world (set_requests (requests w ++ [ExecCommand command]));;
  match exec_answer host (requests w) command with
  | inl e => raise e
  | inr r => mret r
  end.

(** [client.close()]. *)
Definition close (client : SSHClient) : M unit :=
  w ← get_world;
  modify_world (set_requests (requests w ++ [CloseClient]));;
  match close_answer host (requests w) with
  | Some e => raise e
  | None => mret tt
  end.

(** [client.open_sftp().get(src, dest, callback=callback)]: the callback
    runs once per pair the host announces; the local file has the
    downloaded bytes when the transfer ends.  An exception of [open_sftp] or
    of the transfer is the host's answer.  What a transfer that raises
    leaves in the local file is not modelled: no property speaks of it. *)
Definition sftp_get (client : SSHClient) (src dest : string)
    (callback : list (Z * Z) → M unit) : M unit :=
  w ← get_world;
  modify_world (set_requests (requests w ++ [SftpGet src dest]));;
  match get_answer host (requests w) src with
  | inl e => raise e
  | inr (calls, content) =>
      callback calls;;
      modify_world (λ w, set_files (<[dest := content]> (files w)) w)
  end.

(** [_ssh_client], a [cached_property]. *)
Definition _ssh_client : M SSHClient :=
  s ← get_self;
  match _ssh_client_cache s with
  | Some client => mret client
  | None =>
      logger_debug "Creating SSH Client";;
      hostname ← getattr_self "_hostname" _hostname;
      username ← getattr_self "_username" _username;
      ssh_client ← connect hostname username;
      modify_self (set_ssh_client_cache ssh_client);;
      mret ssh_client
  end.

(** [__del__]: the test [if self._ssh_client] reads the property, and an
    [SSHClient] object is true. *)
Definition __del__ : M unit :=
  logger_debug "Closing SSH Client";;
  _ ← _ssh_client;
  client ← _ssh_client;
  close client.

(** What the interpreter does with an object it frees: it calls [__del__]
    and ignores an exception that leaves it. *)
Definition finalize : M unit :=
  λ st, (inr tt, (__del__ st).2).

(** The first lines of [_ssh_exec]: announce the command and send it. *)
Definition send_command (command : string) : M (list string * Z) :=
  logger_info ("Executing " +:+ command +:+ " command");;
  try_except_SSHException
    (client ← _ssh_client; exec_command client command)
    (λ e, logger_exception (exn_str e);; raise e).

(** [_ssh_exec]. *)
Definition _ssh_exec (command : string) (max_allowed_return_code : Z)
  : M unit :=
  '(stdout, exit_status) ← send_command command;
  with_log_file (λ f, write_lines command f stdout 0);;
  if bool_decide (exit_status > max_allowed_return_code)
  then
    let error_msg :=
      "Executed returned " +:+ command +:+ " returned "
        +:+ pretty exit_status in
    logger_exception error_msg;;
    raise (SSHExecException error_msg)
  else logger_info ("Command " +:+ command +:+ " Executed").

(** [_scp]. *)
Definition _scp (src dest : string) : M unit :=
  logger_info ("Copying " +:+ chr DQUOTE +:+ src +:+ chr DQUOTE +:+ " file");;
  client ← _ssh_client;
  sftp_get client src dest callbacks;;
  modify_self (set_progress_bar PNone).

(** [backup]. *)
Definition backup : M unit :=
  logger_info "Entering in backup mode";;
  now ← _now_iso8601;
  _ssh_exec (archive_command now) 1;;
  now ← _now_iso8601;
  _ssh_exec (compress_command now) 0;;
  now_src ← _now_iso8601;
  now_dest ← _now_iso8601;
  _scp (fetch_src now_src) (fetch_dest now_dest);;
  now ← _now_iso8601;
  _ssh_exec (cleanup_command now) 0.

End Remote.

(** ** The [__main__] block *)

(** The value of an attribute of the parsed arguments: a flag, a string,
    the list [argparse] stores for a positional when it is left with no
    single string, or [None]. *)
Inductive argval : Type :=
| ABool (b : bool)
| AStr (s : string)
| AList (l : list string)
| ANone.

Global Instance argval_eq_dec : EqDecision argval.
Proof. solve_decision. Defined.

(** Every argument that has a destination has its attribute from the
    start, set to its default. *)
Definition default_namespace : gmap string argval :=
  <["deploy" := ABool false]>
    (<["backup" := ABool false]>
       (<["host" := ANone]> (<["verbose" := ABool false]> ∅))).

(** The parser the module builds on lines 115 to 130, as [argparse] of
    CPython 3.11 runs it: [-h/--help] from [ArgumentParser()], the flags
    [-d/--deploy] and [-b/--backup] in a required mutually exclusive group,
    the positional [host] and the flag [-v/--verbose].  The definitions
    follow [ArgumentParser._parse_known_args] and the methods it calls, for
    this parser: options may be abbreviated ([--back]), single-dash flags
    may be written together ([-bv]), ["--"] ends the options, and a string
    that looks like a negative number or holds a space is an argument.
    What [argparse] itself writes (the help on [stdout], the usage and the
    error on [stderr]) is not recorded: [console] holds what the module
    shows through its logger, [print] and the progress bar. *)
Module argparse.

(** The actions of the parser, in the order they were added: [-h/--help],
    added by [ArgumentParser()] itself, then the four the module adds. *)
Inductive action : Type := help | deploy | backup | host | verbose.

Global Instance action_eq_dec : EqDecision action.
Proof. solve_decision. Defined.

(** [parser._option_string_actions]. *)
Definition _option_string_actions : list (string * action) :=
  [("-h", help); ("--help", help);
   ("-d", deploy); ("--deploy", deploy);
   ("-b", backup); ("--backup", backup);
   ("-v", verbose); ("--verbose", verbose)].

Definition option_string_action (option_string : string) : option action :=
  snd <$> List.find (λ entry, bool_decide (entry.1 = option_string))
                    _option_string_actions.

(** The other actions of an action's mutually exclusive group. *)
Definition action_conflicts (a : action) : list action :=
  match a with
  | deploy => [backup]
  | backup => [deploy]
  | help | host | verbose => []
  end.

(** [c in s]. *)
Fixpoint has_char (c : ascii) (s : string) : bool :=
  match s with
  | EmptyString => false
  | String a s' => bool_decide (a = c) || has_char c s'
  end.

(** [s.split(sep, 1)] for a string that holds [sep]: what is before the
    first [sep] and what is after it; [None] for a string without [sep]. *)
Fixpoint split_once (sep : ascii) (s : string) : option (string * string) :=
  match s with
  | EmptyString => None
  | String a s' =>
      if decide (a = sep) then Some (EmptyString, s')
      else prod_map (String a) id <$> split_once sep s'
  end.

(** [s[1] in "-"], for a string of two characters or more. *)
Definition second_is_dash (s : string) : bool :=
  match s with
  | String _ (String b _) => bool_decide (b = "-"%char)
  | _ => false
  end.

(** The regular expression [^-\d+$|^-\d*\.\d+$] of
    [_negative_number_matcher].  Among the characters a [string] holds here
    [\d] is a digit from 0 to 9; [$] matches at the end of the string and
    before a newline that ends it. *)
Definition is_digit (a : ascii) : bool :=
  (48 <=? nat_of_ascii a)%nat && (nat_of_ascii a <=? 57)%nat.

Fixpoint all_digits (s : string) : bool :=
  match s with
  | EmptyString => true
  | String a s' => is_digit a && all_digits s'
  end.

Definition digits (s : string) : bool :=
  negb (bool_decide (s = EmptyString)) && all_digits s.

(** The string without the newline that ends it, if one does. *)
Fixpoint before_final_newline (s : string) : string :=
  match s with
  | EmptyString => EmptyString
  | String a EmptyString => if decide (a = LF) then EmptyString else s
  | String a s' => String a (before_final_newline s')
  end.

Definition _negative_number_matcher (s : string) : bool :=
  match s with
  | String "-" number =>
      let number := before_final_newline number in
      digits number
      || match split_once "." number with
         | Some (whole, fraction) => all_digits whole && digits fraction
         | None => false
         end
  | _ => false
  end.

(** What [_parse_optional] returns for a string that is an option: the
    action ([None] for an option the parser does not have), the option
    string and the explicit argument. *)
Definition option_tuple : Type := option action * string * option string.

(** [_get_option_tuples], which is called on strings of two characters or
    more that start with a dash: the options the string abbreviates, or, for
    a single dash, the option of its first letter with the rest as explicit
    argument. *)
Definition _get_option_tuples (option_string : string) : list option_tuple :=
  if second_is_dash option_string then
    let '(option_prefix, explicit_arg) :=
      match split_once "=" option_string with
      | Some (option_prefix, explicit_arg) => (option_prefix, Some explicit_arg)
      | None => (option_string, None)
      end in
    omap (λ entry : string * action,
            if String.prefix option_prefix entry.1
            then Some (Some entry.2, entry.1, explicit_arg)
            else None)
         _option_string_actions
  else
    let option_prefix := option_string in
    let short_option_prefix := String.substring 0 2 option_string in
    let short_explicit_arg :=
      String.substring 2 (String.length option_string - 2) option_string in
    omap (λ entry : string * action,
            if bool_decide (entry.1 = short_option_prefix)
            then Some (Some entry.2, entry.1, Some short_explicit_arg)
            else if String.prefix option_prefix entry.1
            then Some (Some entry.2, entry.1, None)
            else None)
         _option_string_actions.

(** [parser.error(message)]: the usage and the message go to [stderr], and
    the process exits with status 2. *)
Definition error {A : Type} : exn + A := inl (SystemExit 2).

(** [_parse_optional]: [None] for a string that is an argument. *)
Definition _parse_optional (arg_string : string)
  : exn + option option_tuple :=
  match arg_string with
  | EmptyString => inr None
  | String first _ =>
      if negb (bool_decide (first = "-"%char)) then inr None
      else
        match option_string_action arg_string with
        | Some action => inr (Some (Some action, arg_string, None))
        | None =>
            if bool_decide (String.length arg_string = 1%nat) then inr None
            else
              let with_equals :=
                match split_once "=" arg_string with
                | Some (option_string, explicit_arg) =>
                    match option_string_action option_string with
                    | Some action =>
                        Some (Some action, option_string, Some explicit_arg)
                    | None => None
                    end
                | None => None
                end in
              match with_equals with
              | Some tuple => inr (Some tuple)
              | None =>
                  match _get_option_tuples arg_string with
                  | _ :: _ :: _ => error
                  | [tuple] => inr (Some tuple)
                  | [] =>
                      if _negative_number_matcher arg_string then inr None
                      else if has_char " " arg_string then inr None
                      else inr (Some (None, arg_string, None))
                  end
              end
        end
  end.

(** A character of [arg_strings_pattern], with the option it stands for. *)
Inductive pattern : Type :=
| A
| O (tuple : option_tuple)
| dash.

Definition is_O (part : string * pattern) : bool :=
  match part.2 with O _ => true | A | dash => false end.

Definition is_dash (part : string * pattern) : bool :=
  match part.2 with dash => true | A | O _ => false end.

(** The first loop of [_parse_known_args]: every argument string with its
    character in the pattern. *)
Fixpoint arg_strings_pattern (arg_strings : list string)
  : exn + list (string * pattern) :=
  match arg_strings with
  | [] => inr []
  | arg_string :: rest =>
      if bool_decide (arg_string = "--")
      then inr ((arg_string, dash) :: ((λ s, (s, A)) <$> rest))
      else
        match _parse_optional arg_string with
        | inl e => inl e
        | inr option_tuple =>
            match arg_strings_pattern rest with
            | inl e => inl e
            | inr parts =>
                inr ((arg_string,
                      match option_tuple with
                      | None => A
                      | Some tuple => O tuple
                      end) :: parts)
            end
        end
  end.

(** What [_parse_known_args] keeps while it runs. *)
Record parsing : Type := {
  namespace : gmap string argval;
  seen_actions : list action;
  seen_non_default_actions : list action;
  positionals : list action;
  extras : list string;
}.

(** [list.remove(x)], without the [ValueError]. *)
Fixpoint remove_first (x : string) (l : list string) : list string :=
  match l with
  | [] => []
  | y :: l' => if decide (y = x) then l' else y :: remove_first x l'
  end.

(** [_get_values] for the positional [host]: the first ["--"] is dropped, and
    one string that is left is the value. *)
Definition _get_values (arg_strings : list string) : argval :=
  match remove_first "--" arg_strings with
  | [arg_string] => AStr arg_string
  | values => AList values
  end.

(** [take_action].  The values of an option are the empty list, which is
    not its default, so every action taken counts as seen with a value that
    is not the default.  [_StoreTrueAction] and [_StoreAction] set the
    attribute; [_HelpAction] prints the help and calls [parser.exit()]. *)
Definition take_action (a : action) (argument_strings : list string)
    (p : parsing) : exn + parsing :=
  let seen := a :: seen_non_default_actions p in
  if existsb (λ conflict_action, bool_decide (conflict_action ∈ seen))
             (action_conflicts a)
  then error
  else
    let set (dest : string) (value : argval) :=
      inr {| namespace := <[dest := value]> (namespace p);
             seen_actions := a :: seen_actions p;
             seen_non_default_actions := seen;
             positionals := positionals p;
             extras := extras p |} in
    match a with
    | help => inl (SystemExit 0)
    | deploy => set "deploy" (ABool true)
    | backup => set "backup" (ABool true)
    | verbose => set "verbose" (ABool true)
    | host => set "host" (_get_values argument_strings)
    end.

Fixpoint take_actions (action_tuples : list action) (p : parsing)
  : exn + parsing :=
  match action_tuples with
  | [] => inr p
  | a :: rest =>
      match take_action a [] p with
      | inl e => inl e
      | inr p' => take_actions rest p'
      end
  end.

(** The loop of [consume_optional] from its second round on: the explicit
    argument [explicit_arg], not empty, of a single-dash option that takes
    no argument is read as more single-dash options. *)
Fixpoint more_options (explicit_arg : string) : exn + list action :=
  match explicit_arg with
  | EmptyString => inr []
  | String c new_explicit_arg =>
      match option_string_action (String "-" (String c EmptyString)) with
      | None => error
      | Some a =>
          match more_options new_explicit_arg with
          | inl e => inl e
          | inr action_tuples => inr (a :: action_tuples)
          end
      end
  end.

(** [consume_optional]: no option of this parser takes an argument. *)
Definition consume_optional (arg_string : string) (tuple : option_tuple)
    (p : parsing) : exn + parsing :=
  match tuple with
  | (None, _, _) =>
      inr {| namespace := namespace p;
             seen_actions := seen_actions p;
             seen_non_default_actions := seen_non_default_actions p;
             positionals := positionals p;
             extras := extras p ++ [arg_string] |}
  | (Some a, option_string, None) => take_actions [a] p
  | (Some a, option_string, Some explicit_arg) =>
      if negb (second_is_dash option_string)
         && negb (bool_decide (explicit_arg = EmptyString))
      then
        match more_options explicit_arg with
        | inl e => inl e
        | inr action_tuples => take_actions (a :: action_tuples) p
        end
      else error
  end.

(** The pattern of a positional with one argument, at the start of what is
    left: any number of dashes, an [A], any number of dashes.  The length of
    what it matches. *)
Fixpoint dashes (parts : list (string * pattern)) : nat :=
  match parts with
  | part :: parts' => if is_dash part then S (dashes parts') else 0
  | [] => 0
  end.

Definition match_positional (parts : list (string * pattern)) : option nat :=
  match drop (dashes parts) parts with
  | (_, A) :: after => Some (dashes parts + 1 + dashes after)%nat
  | _ => None
  end.

(** [consume_positionals], for a parser with one positional: what is left
    of the argument strings comes back with the state. *)
Definition consume_positionals (parts : list (string * pattern)) (p : parsing)
  : exn + (parsing * list (string * pattern)) :=
  match positionals p with
  | [] => inr (p, parts)
  | a :: others =>
      match match_positional parts with
      | None => inr (p, parts)
      | Some arg_count =>
          match take_action a (fst <$> take arg_count parts) p with
          | inl e => inl e
          | inr p' =>
              inr ({| namespace := namespace p';
                      seen_actions := seen_actions p';
                      seen_non_default_actions := seen_non_default_actions p';
                      positionals := others;
                      extras := extras p' |},
                   drop arg_count parts)
          end
      end
  end.

(** The strings before the next option, the option, and what follows it. *)
Fixpoint next_option (parts : list (string * pattern))
  : option (list (string * pattern) * (string * option_tuple)
            * list (string * pattern)) :=
  match parts with
  | [] => None
  | (arg_string, O tuple) :: after => Some ([], (arg_string, tuple), after)
  | part :: parts' =>
      match next_option parts' with
      | Some (before, option, after) => Some (part :: before, option, after)
      | None => None
      end
  end.

(** The [while] loop of [_parse_known_args]: positionals and options in
    turn, as long as an option is left.  Each round takes at least one
    argument string, so the rounds are at most as many as the strings. *)
Fixpoint consume (rounds : nat) (parts : list (string * pattern)) (p : parsing)
  : exn + (parsing * list (string * pattern)) :=
  match rounds with
  | 0%nat => inr (p, parts)
  | S rounds =>
      match next_option parts with
      | None => inr (p, parts)
      | Some ([], (arg_string, tuple), after) =>
          match consume_optional arg_string tuple p with
          | inl e => inl e
          | inr p' => consume rounds after p'
          end
      | Some (before, (arg_string, tuple), after) =>
          match consume_positionals parts p with
          | inl e => inl e
          | inr (p', parts') =>
              if bool_decide (length parts' < length parts)%nat
              then consume rounds parts' p'
              else
                let p' :=
                  {| namespace := namespace p';
                     seen_actions := seen_actions p';
                     seen_non_default_actions := seen_non_default_actions p';
                     positionals := positionals p';
                     extras := extras p' ++ (fst <$> before) |} in
                match consume_optional arg_string tuple p' with
                | inl e => inl e
                | inr p'' => consume rounds after p''
                end
          end
      end
  end.

(** [_parse_known_args]. *)
Definition _parse_known_args (arg_strings : list string)
    (ns : gmap string argval) : exn + (gmap string argval * list string) :=
  match arg_strings_pattern arg_strings with
  | inl e => inl e
  | inr parts =>
      match consume (length parts) parts
              {| namespace := ns; seen_actions := [];
                 seen_non_default_actions := []; positionals := [host];
                 extras := [] |} with
      | inl e => inl e
      | inr (p, parts) =>
          match consume_positionals parts p with
          | inl e => inl e
          | inr (p, parts) =>
              if negb (bool_decide (host ∈ seen_actions p)) then error
              else if negb (bool_decide (deploy ∈ seen_non_default_actions p))
                      && negb (bool_decide
                                 (backup ∈ seen_non_default_actions p))
              then error
              else inr (namespace p, extras p ++ (fst <$> parts))
          end
      end
  end.

(** [parse_known_args], then [parse_args]. *)
Definition parse_known_args (args : list string)
  : exn + (gmap string argval * list string) :=
  _parse_known_args args default_namespace.

Definition parse_args (args : list string) : exn + gmap string argval :=
  match parse_known_args args with
  | inl e => inl e
  | inr (ns, []) => inr ns
  | inr (ns, _ :: _) => error
  end.

End argparse.

(** [parser.parse_args()] on the command line [argv]: the attribute
    dictionary of the [Namespace], or [SystemExit]. *)
Definition parse_args (argv : list string) : M (gmap string argval) :=
  match argparse.parse_args argv with
  | inl e => raise e
  | inr ns => mret ns
  end.

(** [name in args]: a [Namespace] contains the names of its attributes. *)
Definition Namespace_contains (name : string) (args : gmap string argval)
  : bool :=
  bool_decide (is_Some (args !! name)).

(** The two bound methods [fn] can be. *)
Inductive operation : Type := manager_backup | manager_deploy.

(** The [if]/[elif] that binds [fn]. *)
Definition select_fn (args : gmap string argval) : option operation :=
  if Namespace_contains "backup" args then Some manager_backup
  else if Namespace_contains "deploy" args then Some manager_deploy
  else None.

(** [HASSRemoteManagement(hostname, username)]: a new object, then
    [__init__] on it. *)
Definition HASSRemoteManagement (hostname username : string) : M unit :=
  modify_self (λ _, new_object);;
  __init__ hostname username.

Section Main.

Variable host : Host.

(** [fn()]. *)
Definition call_fn (fn : option operation) : M unit :=
  match fn with
  | Some manager_backup => backup host
  | Some manager_deploy => deploy
  | None => raise (TypeError "'NoneType' object is not callable")
  end.

Definition main (argv : list string) : M unit :=
  args ← parse_args argv;
  (if bool_decide (args !! "verbose" = Some (ABool true))
   then logger_setLevel DEBUG else mret tt);;
  match args !! "host" with
  | Some (AStr args_host) =>
      match Str.split "@" args_host with
      | [username; hostname] =>
          HASSRemoteManagement hostname username;;
          call_fn (select_fn args)
      | [] | [_] =>
          raise (ValueError "not enough values to unpack (expected 2, got 1)")
      | _ => raise (ValueError "too many values to unpack (expected 2)")
      end
  | _ => raise (AttributeError "split")
  end.

End Main.

(** The state a process starts in: no file written, nothing asked, nothing
    shown, the logger at level [INFO]. *)
Definition initial_world (clock : nat → string) : World :=
  {| clock := clock; ticks := 0; files := ∅; requests := [];
     console := []; logger_level := INFO |}.

Definition initial_state (clock : nat → string) : State :=
  {| self := new_object; world := initial_world clock |}.

(** * What the properties speak of *)

(** [never_raises m]: [m] returns a value from every state. *)
Definition never_raises {A : Type} (m : M A) : Prop :=
  ∀ st, ∃ a st', m st = (inr a, st').

(** [offline m]: [m] asks nothing of the remote side. *)
Definition offline {A : Type} (m : M A) : Prop :=
  ∀ st, requests (world (m st).2) = requests (world st).

(** [keeps_files m]: [m] leaves the working directory as it is. *)
Definition keeps_files {A : Type} (m : M A) : Prop :=
  ∀ st, files (world (m st).2) = files (world st).

(** What one command leaves in the log: its lines, each without its
    trailing newlines, one after the other with nothing in between. *)
Definition log_text (stdout : list string) : string :=
  foldr String.append EmptyString (Str.rstrip LF <$> stdout).

(** The text of the error [_ssh_exec] raises. *)
Definition exit_status_message (command : string) (exit_status : Z) : string :=
  "Executed returned " +:+ command +:+ " returned " +:+ pretty exit_status.

(** * Scenarios *)

(** The sessions and hosts the examples run on. *)

(** A clock that shows one instant. *)
Definition at_noon : nat → string := λ _, "2024-05-01T12:00:00".

(** A host as [backup] expects it: [tar] warns and exits with 1, every other
    command prints nothing and exits with 0, a download arrives in two
    chunks. *)
Definition obliging_host : Host :=
  {| connect_answer := λ _ _ _, None;
     exec_answer := λ _ command,
       if String.prefix "sudo tar" command
       then inr (["tar: Removing leading `/' from member names" +:+ chr CR
                    +:+ chr LF;
                  "/home/homeassistant/.homeassistant/" +:+ chr CR +:+ chr LF],
                 1)
       else inr ([], 0);
     get_answer := λ _ _, inr ([(32768, 40000); (40000, 40000)], "BZh91AY");
     close_answer := λ _, None |}.

(** The same host with a [tar] that fails: exit status 2. *)
Definition failing_tar_host : Host :=
  {| connect_answer := λ _ _ _, None;
     exec_answer := λ _ command,
       if String.prefix "sudo tar" command
       then inr (["tar: Cannot open: Permission denied" +:+ chr CR +:+ chr LF],
                 2)
       else inr ([], 0);
     get_answer := λ _ _, inr ([(32768, 40000); (40000, 40000)], "BZh91AY");
     close_answer := λ _, None |}.

(** A host on which every command prints its own text on a line and exits
    with 0. *)
Definition echo_host : Host :=
  {| connect_answer := λ _ _ _, None;
     exec_answer := λ _ command, inr ([command +:+ chr LF], 0);
     get_answer := λ _ _, inr ([], EmptyString);
     close_answer := λ _, None |}.

(** A host with two files: [small], 10 bytes in one chunk, and [large],
    8 bytes in two chunks of 4. *)
Definition two_files_host : Host :=
  {| connect_answer := λ _ _ _, None;
     exec_answer := λ _ _, inr ([], 0);
     get_answer := λ _ src,
       if bool_decide (src = "small") then inr ([(10, 10)], "0123456789")
       else inr ([(4, 8); (8, 8)], "abcdefgh");
     close_answer := λ _, None |}.

(** The object [HASSRemoteManagement("host", "user")] leaves behind at the
    start of a process: the call raises, the object has the two attributes
    assigned before. *)
Definition left_by_constructor : State :=
  (HASSRemoteManagement "host" "user" (initial_state at_noon)).2.

(** An object with the three attributes [__init__] assigns, the third one
    set to [None] by hand. *)
Definition with_progress_bar_None : State :=
  {| self := set_progress_bar PNone (self left_by_constructor);
     world := world left_by_constructor |}.

(** The session after one command on [echo_host]. *)
Definition after_first_command : State :=
  (_ssh_exec echo_host "first" 0 left_by_constructor).2.

(** The session after the download of [small] from [two_files_host]. *)
Definition after_first_transfer : State :=
  (_scp two_files_host "small" "small.copy" with_progress_bar_None).2.

(** What a computation adds to the console. *)
Definition shown_by {A : Type} (m : M A) (st : State) : list output :=
  drop (length (console (world st))) (console (world (m st).2)).

(** The last character of a string. *)
Fixpoint last_char (s : string) : option ascii :=
  match s with
  | EmptyString => None
  | String a EmptyString => Some a
  | String _ s' => last_char s'
  end.

(** The cumulative value the instance remembers; nothing remembered counts
    as 0, which is how [_scp_loading_bar] treats it. *)
Definition remembered (s : Session) : Z := default 0 (_progress_bar_last s).

(** The cumulative value of the last of [calls]; [start] when there is no
    call. *)
Definition last_cumulative (calls : list (Z * Z)) (start : Z) : Z :=
  foldl (λ _ call, call.1) start calls.

(** The amounts by which a bar was advanced, as the console shows them. *)
Definition bar_updates (shown : list output) : list Z :=
  omap (λ o, match o with BarUpdate amount => Some amount | _ => None end)
       shown.

(** The total advance: the sum of the amounts. *)
Definition total_advance (shown : list output) : Z :=
  foldr Z.add 0 (bar_updates shown).

(** * What the further properties speak of *)

(** [caches_kept s s']: the host name and the user name are the same in
    [s'] as in [s], and what a [cached_property] holds in [s] it holds in
    [s']. *)
Definition caches_kept (s s' : Session) : Prop :=
  _hostname s' = _hostname s
  ∧ _username s' = _username s
  ∧ (∀ v, _now_iso8601_cache s = Some v → _now_iso8601_cache s' = Some v)
  ∧ (∀ v, _log_file_name_cache s = Some v → _log_file_name_cache s' = Some v)
  ∧ (∀ v, _ssh_client_cache s = Some v → _ssh_client_cache s' = Some v).

(** [respects R m]: from every state, [m] ends in a state related by [R],
    whether it returns or raises. *)
Definition respects (R : State → State → Prop) {A : Type} (m : M A) : Prop :=
  ∀ st, R st (m st).2.

(** The instance keeps its caches. *)
Definition keeping_caches (st st' : State) : Prop :=
  caches_kept (self st) (self st').

(** The instance is left as it is. *)
Definition keeping_self (st st' : State) : Prop := self st' = self st.

(** The connection the instance holds, or its absence, is left as it is. *)
Definition keeping_client (st st' : State) : Prop :=
  _ssh_client_cache (self st') = _ssh_client_cache (self st).

(** The remote side is asked nothing. *)
Definition asking_nothing (st st' : State) : Prop :=
  requests (world st') = requests (world st).

(** The working directory is left as it is. *)
Definition keeping_files (st st' : State) : Prop :=
  files (world st') = files (world st).

(** The clock is not read. *)
Definition keeping_ticks (st st' : State) : Prop :=
  ticks (world st') = ticks (world st).

(** Whether a result is a value. *)
Definition returned {A : Type} (r : exn + A) : bool :=
  match r with inl _ => false | inr _ => true end.

(** [asks step m]: what [m] asks of the remote side is at most a
    connection, and only when the session has none, followed by at most the
    request [step]; when [m] returns, [step] was asked and the session has a
    connection. *)
Definition asks (step : request) {A : Type} (m : M A) : Prop :=
  ∀ st,
    ∃ pre sent,
      requests (world (m st).2) = requests (world st) ++ pre ++ sent
      ∧ (pre = []
         ∨ (∃ h u, pre = [Connect h u])
           ∧ _ssh_client_cache (self st) = None)
      ∧ (sent = [] ∨ sent = [step])
      ∧ (returned (m st).1 = true →
         sent = [step] ∧ is_Some (_ssh_client_cache (self (m st).2))).

(** What [_progress_bar_last] holds after the callbacks [calls], from what
    it held before: the cumulative value of the last call, if any. *)
Definition remembered_after (calls : list (Z * Z)) (before : option Z)
  : option Z :=
  foldl (λ _ call, Some call.1) before calls.

(** The two attributes of the progress callback are left as they are. *)
Definition keeping_progress (st st' : State) : Prop :=
  _progress_bar (self st') = _progress_bar (self st)
  ∧ _progress_bar_last (self st') = _progress_bar_last (self st).

(** A host that refuses every command: [exec_command] raises
    [SSHException]. *)
Definition refusing_host : Host :=
  {| connect_answer := λ _ _ _, None;
     exec_answer := λ _ _, inl (SSHException "Channel closed.");
     get_answer := λ _ _, inl (OSError "Socket is closed");
     close_answer := λ _, None |}.

(** A host that cannot be reached. *)
Definition unreachable_host : Host :=
  {| connect_answer := λ _ _ _, Some (OSError "No route to host");
     exec_answer := λ _ _, inl (SSHException "Channel closed.");
     get_answer := λ _ _, inl (OSError "Socket is closed");
     close_answer := λ _, None |}.


(** [parsed ns d b v h]: the attributes of the namespace [ns] are the three
    flags [d], [b], [v] and the host [h], [None] while no positional was
    read. *)
Definition parsed (ns : gmap string argval) (d b v : bool) (h : option string)
  : Prop :=
  ns !! "deploy" = Some (ABool d)
  ∧ ns !! "backup" = Some (ABool b)
  ∧ ns !! "verbose" = Some (ABool v)
  ∧ ns !! "host" = Some (match h with Some s => AStr s | None => ANone end).

(** The two ways [argparse] ends a process: status 0 after the help, status
    2 after an error. *)
Definition exits (e : exn) : Prop := e = SystemExit 0 ∨ e = SystemExit 2.

(** A pattern as the first loop of [_parse_known_args] builds it: a dash
    stands for the string ["--"], nothing but arguments follow it, and no
    argument before it is the string ["--"]. *)
Fixpoint fresh (parts : list (string * argparse.pattern)) : Prop :=
  match parts with
  | [] => True
  | (s, argparse.dash) :: rest =>
      s = "--" ∧ Forall (λ part, part.2 = argparse.A) rest
  | (s, argparse.A) :: rest => s ≠ "--" ∧ fresh rest
  | (s, argparse.O _) :: rest => fresh rest
  end.

(** The options of a pattern are options: none stands for the positional. *)
Definition options_known (parts : list (string * argparse.pattern)) : Prop :=
  Forall (λ part, ∀ option_string explicit_arg,
            part.2 ≠ argparse.O (Some argparse.host, option_string,
                                 explicit_arg))
         parts.

(** What holds of the state of [_parse_known_args] between two steps: the
    three flags are booleans, a flag of the exclusive group is set exactly
    when its action was seen, the two are not both set, and the host is a
    string once the positional was read. *)
Definition parsing_ok (p : argparse.parsing) : Prop :=
  ∃ d b v h,
    parsed (argparse.namespace p) d b v h
    ∧ (d = true ↔ argparse.deploy ∈ argparse.seen_non_default_actions p)
    ∧ (b = true ↔ argparse.backup ∈ argparse.seen_non_default_actions p)
    ∧ d && b = false
    ∧ (argparse.positionals p = [] ∧ is_Some h
       ∨ argparse.positionals p = [argparse.host]
         ∧ (argparse.host ∉ argparse.seen_actions p)).

(** The caches are kept, and the clock is read at most once: when it is
    read, the session had no timestamp before and has one after. *)
Definition reading_clock_once (st st' : State) : Prop :=
  keeping_caches st st'
  ∧ (ticks (world st') = ticks (world st)
     ∨ _now_iso8601_cache (self st) = None
       ∧ is_Some (_now_iso8601_cache (self st'))
       ∧ ticks (world st') = S (ticks (world st))).

(** The four requests of a complete [backup], for the timestamp [now]. *)
Definition backup_steps (now : string) : list request :=
  [ExecCommand (archive_command now);
   ExecCommand (compress_command now);
   SftpGet (fetch_src now) (fetch_dest now);
   ExecCommand (cleanup_command now)].

(** The session after a backup from [obliging_host], begun with
    [_progress_bar] set to [None]. *)
Definition after_backup : State :=
  (backup obliging_host with_progress_bar_None).2.

(** [accepts host history command allowed]: asked to run [command] after
    the requests [history], the host runs it, and the exit status is at most
    [allowed]. *)
Definition accepts (host : Host) (history : list request) (command : string)
    (allowed : Z) : Prop :=
  ∃ stdout exit_status,
    exec_answer host history command = inr (stdout, exit_status)
    ∧ exit_status ≤ allowed.

(** [delivers host history src]: asked for the file [src] after the
    requests [history], the host sends it. *)
Definition delivers (host : Host) (history : list request) (src : string)
  : Prop :=
  ∃ calls content, get_answer host history src = inr (calls, content).

(** * Properties *)

(** ** Running the monad *)

Lemma run_bind {A B : Type} (m : M A) (f : A → M B) (st : State) :
  (m ≫= f) st =
  match m st with
  | (inl e, st') => (inl e, st')
  | (inr a, st') => f a st'
  end.
Proof. reflexivity. Qed.

(** One step of a computation whose head is a primitive. *)
Ltac run :=
  repeat first
    [ rewrite run_bind
    | progress cbn [mret M_ret raise get_self get_world modify_self
                    modify_world print file_write file_close
                    logger_setLevel fst snd]
    | progress unfold open_w_plus, tqdm_new, datetime_now_isoformat ].

Lemma run_bind_ok {A B : Type} (m : M A) (f : A → M B) st a st' :
  m st = (inr a, st') → (m ≫= f) st = f a st'.
Proof. intros Hm. rewrite run_bind, Hm. reflexivity. Qed.

Lemma run_bind_raise {A B : Type} (m : M A) (f : A → M B) st e st' :
  m st = (inl e, st') → (m ≫= f) st = (inl e, st').
Proof. intros Hm. rewrite run_bind, Hm. reflexivity. Qed.

(** ** Strings *)

Lemma append_cons (a : ascii) (s t : string) :
  String a s +:+ t = String a (s +:+ t).
Proof. reflexivity. Qed.

Lemma append_nil_r (s : string) : s +:+ EmptyString = s.
Proof.
  induction s as [|a s IH]; [reflexivity|]. by rewrite append_cons, IH.
Qed.

Lemma append_assoc (s1 s2 s3 : string) :
  (s1 +:+ s2) +:+ s3 = s1 +:+ (s2 +:+ s3).
Proof.
  induction s1 as [|a s1 IH]; [reflexivity|]. by rewrite !append_cons, IH.
Qed.

Lemma contains_middle (before sub after : string) :
  Str.contains (before +:+ sub +:+ after) sub.
Proof. by exists before, after. Qed.

Lemma contains_end (before sub : string) :
  Str.contains (before +:+ sub) sub.
Proof. exists before, EmptyString. by rewrite append_nil_r. Qed.

Lemma endswith_spec (s suffix : string) :
  Str.endswith s suffix = true ↔ ∃ p, s = p +:+ suffix.
Proof.
  induction s as [|a s IH]; cbn.
  - destruct (decide (EmptyString = suffix)) as [<-|Hne].
    + split; [by exists EmptyString | done].
    + split; [done|]. intros [[|b p] Hp]; [done|by rewrite append_cons in Hp].
  - destruct (decide (String a s = suffix)) as [<-|Hne].
    + split; [by exists EmptyString | done].
    + rewrite IH. split.
      * intros [p ->]. by exists (String a p).
      * intros [[|b p] Hp]; [done|]. rewrite append_cons in Hp.
        injection Hp as _ ->. by exists p.
Qed.

(** ** Construction *)

Lemma load_global__None : load_global "_None" = raise (NameError "_None").
Proof. vm_compute. reflexivity. Qed.

Lemma __init___raises (hostname username : string) (st : State) :
  __init__ hostname username st =
  (inl (NameError "_None"),
   {| self := set_username username (set_hostname hostname (self st));
      world := world st |}).
Proof. unfold __init__. rewrite load_global__None. reflexivity. Qed.

Lemma HASSRemoteManagement_raises (hostname username : string) (st : State) :
  HASSRemoteManagement hostname username st =
  (inl (NameError "_None"),
   {| self := set_username username (set_hostname hostname new_object);
      world := world st |}).
Proof.
  unfold HASSRemoteManagement. rewrite run_bind. cbn [modify_self].
  by rewrite __init___raises.
Qed.

(** What [main] leaves untouched whatever the command line: the files, the
    requests to the remote side and the console. *)
Lemma main_raises (host : Host) (argv : list string) (st : State) :
  ∃ e st',
    main host argv st = (inl e, st')
    ∧ requests (world st') = requests (world st)
    ∧ files (world st') = files (world st)
    ∧ console (world st') = console (world st).
Proof.
  unfold main. rewrite run_bind. unfold parse_args.
  destruct (argparse.parse_args argv) as [e|ns]; [by eexists _, _|].
  cbn [mret M_ret]. rewrite run_bind.
  set (st1 := ((if bool_decide (ns !! "verbose" = Some (ABool true))
                then logger_setLevel DEBUG else mret ()) st).2).
  assert (Hst1 : (if bool_decide (ns !! "verbose" = Some (ABool true))
                  then logger_setLevel DEBUG else mret ()) st = (inr tt, st1)
                 ∧ requests (world st1) = requests (world st)
                 ∧ files (world st1) = files (world st)
                 ∧ console (world st1) = console (world st)).
  { subst st1. by case_bool_decide. }
  destruct Hst1 as (-> & Hreq & Hfiles & Hconsole).
  destruct (ns !! "host") as [[b|args_host|l|]|]; try done;
    try by eexists _, _.
  destruct (Str.split "@" args_host) as [|username [|hostname [|? ?]]].
  1, 2, 4: by eexists _, _.
  rewrite run_bind, HASSRemoteManagement_raises. by eexists _, _.
Qed.

(** C10: for every hostname and username the constructor raises
    [NameError] for the name [_None], after the two assignments before it;
    and [main], whatever the command line, ends in an exception without a
    request to the remote side, a file written or a line on the console: no
    operation of a session is reached. *)
Theorem construction_raises_NameError :
  (∀ hostname username st,
     HASSRemoteManagement hostname username st
     = (inl (NameError "_None"),
        {| self := set_username username (set_hostname hostname new_object);
           world := world st |}))
  ∧ (∀ host argv st,
       ∃ e st',
         main host argv st = (inl e, st')
         ∧ requests (world st') = requests (world st)
         ∧ files (world st') = files (world st)
         ∧ console (world st') = console (world st)).
Proof.
  split.
  - apply HASSRemoteManagement_raises.
  - apply main_raises.
Qed.

(** ** What a computation may do *)

Lemma never_raises_bind {A B : Type} (m : M A) (f : A → M B) :
  never_raises m → (∀ a, never_raises (f a)) → never_raises (m ≫= f).
Proof.
  intros Hm Hf st. destruct (Hm st) as (a & st' & Hrun).
  rewrite (run_bind_ok _ _ _ _ _ Hrun). apply Hf.
Qed.

Lemma offline_bind {A B : Type} (m : M A) (f : A → M B) :
  offline m → (∀ a, offline (f a)) → offline (m ≫= f).
Proof.
  intros Hm Hf st. rewrite run_bind. specialize (Hm st).
  destruct (m st) as [[e|a] st']; [exact Hm|].
  rewrite Hf. exact Hm.
Qed.

Lemma keeps_files_bind {A B : Type} (m : M A) (f : A → M B) :
  keeps_files m → (∀ a, keeps_files (f a)) → keeps_files (m ≫= f).
Proof.
  intros Hm Hf st. rewrite run_bind. specialize (Hm st).
  destruct (m st) as [[e|a] st']; [exact Hm|].
  rewrite Hf. exact Hm.
Qed.

Lemma never_raises_ret {A : Type} (a : A) : never_raises (mret a).
Proof. intros st. by eexists _, _. Qed.

Lemma offline_ret {A : Type} (a : A) : offline (mret a).
Proof. by intros st. Qed.

Lemma keeps_files_ret {A : Type} (a : A) : keeps_files (mret a).
Proof. by intros st. Qed.

Lemma offline_raise {A : Type} (e : exn) : offline (@raise A e).
Proof. by intros st. Qed.

Lemma keeps_files_raise {A : Type} (e : exn) : keeps_files (@raise A e).
Proof. by intros st. Qed.

Lemma never_raises_log lvl msg : never_raises (log lvl msg).
Proof.
  intros st. unfold log. rewrite run_bind. cbn [get_world].
  case_bool_decide; by eexists _, _.
Qed.

Lemma offline_log lvl msg : offline (log lvl msg).
Proof.
  intros st. unfold log. rewrite run_bind. cbn [get_world].
  by case_bool_decide.
Qed.

Lemma keeps_files_log lvl msg : keeps_files (log lvl msg).
Proof.
  intros st. unfold log. rewrite run_bind. cbn [get_world].
  by case_bool_decide.
Qed.

Lemma log_keeps_self lvl msg st : self (log lvl msg st).2 = self st.
Proof. unfold log. rewrite run_bind. cbn [get_world]. by case_bool_decide. Qed.

Lemma never_raises__now_iso8601 : never_raises _now_iso8601.
Proof.
  intros st. unfold _now_iso8601. rewrite run_bind. cbn [get_self].
  destruct (_now_iso8601_cache (self st)); by eexists _, _.
Qed.

Lemma offline__now_iso8601 : offline _now_iso8601.
Proof.
  intros st. unfold _now_iso8601. rewrite run_bind. cbn [get_self].
  by destruct (_now_iso8601_cache (self st)).
Qed.

Lemma keeps_files__now_iso8601 : keeps_files _now_iso8601.
Proof.
  intros st. unfold _now_iso8601. rewrite run_bind. cbn [get_self].
  by destruct (_now_iso8601_cache (self st)).
Qed.

Lemma never_raises__log_file_name : never_raises _log_file_name.
Proof.
  intros st. unfold _log_file_name. rewrite run_bind. cbn [get_self].
  destruct (_log_file_name_cache (self st)); [by eexists _, _|].
  destruct (never_raises__now_iso8601 st) as (now & st' & Hnow).
  rewrite (run_bind_ok _ _ _ _ _ Hnow). by eexists _, _.
Qed.

Lemma offline__log_file_name : offline _log_file_name.
Proof.
  intros st. unfold _log_file_name. rewrite run_bind. cbn [get_self].
  destruct (_log_file_name_cache (self st)); [done|].
  apply offline_bind; [apply offline__now_iso8601 | done].
Qed.

Lemma keeps_files__log_file_name : keeps_files _log_file_name.
Proof.
  intros st. unfold _log_file_name. rewrite run_bind. cbn [get_self].
  destruct (_log_file_name_cache (self st)); [done|].
  apply keeps_files_bind; [apply keeps_files__now_iso8601 | done].
Qed.

(** ** The log file *)

Lemma write_lines_run (command f : string) (stdout : list string) :
  ∀ (lines_count : nat) (st : State) (content : string),
    files (world st) !! f = Some content →
    ∃ st',
      write_lines command f stdout lines_count st = (inr tt, st')
      ∧ files (world st') !! f = Some (content +:+ log_text stdout)
      ∧ requests (world st') = requests (world st)
      ∧ self st' = self st.
Proof.
  induction stdout as [|line rest IH]; intros lines_count st content Hf.
  - exists st. by rewrite append_nil_r.
  - cbn [write_lines]. run.
    edestruct IH as (st' & -> & Hf' & Hreq & Hself).
    { cbn. apply lookup_insert_eq. }
    exists st'. split; [done|]. rewrite Hf', Hreq, Hself, Hf. cbn.
    by rewrite append_assoc.
Qed.

Lemma with_log_file_write_lines (command : string) (stdout : list string)
    (st st0 : State) (name : string) :
  _log_file_name st = (inr name, st0) →
  ∃ st',
    with_log_file (λ f, write_lines command f stdout 0%nat) st = (inr tt, st')
    ∧ files (world st') !! name = Some (log_text stdout)
    ∧ requests (world st') = requests (world st)
    ∧ self st' = self st0.
Proof.
  intros Hname. unfold with_log_file.
  rewrite (run_bind_ok _ _ _ _ _ Hname). run.
  unfold try_finally. run.
  edestruct (write_lines_run command name stdout 0%nat) as
    (st' & -> & Hf & Hreq & Hself).
  { cbn. apply lookup_insert_eq. }
  exists st'. split; [done|]. split; [done|]. split; [|done].
  rewrite Hreq. cbn. rewrite <- (offline__log_file_name st). by rewrite Hname.
Qed.

(** The name of the log file is computed once: from then on the instance
    holds it. *)
Lemma _log_file_name_cached (st st' : State) (name : string) :
  _log_file_name st = (inr name, st') →
  _log_file_name_cache (self st') = Some name
  ∧ ∀ earlier, _log_file_name_cache (self st) = Some earlier → earlier = name.
Proof.
  unfold _log_file_name. run.
  destruct (_log_file_name_cache (self st)) as [cached|] eqn:Hcache.
  - intros [= <- <-]. split; [done|]. by intros ? [= <-].
  - run. destruct (never_raises__now_iso8601 st) as (now & st0 & ->).
    intros [= <- <-]. split; [done|]. by intros.
Qed.

(** ** The connection *)

(** Reading [_ssh_client] asks at most for one connection. *)
Lemma _ssh_client_requests (host : Host) (st : State) :
  ∃ pre,
    requests (world (_ssh_client host st).2) = requests (world st) ++ pre
    ∧ (pre = [] ∨ ∃ h u, pre = [Connect h u]).
Proof.
  unfold _ssh_client. run.
  destruct (_ssh_client_cache (self st)) as [client|].
  { exists []. by rewrite app_nil_r; auto. }
  destruct (never_raises_log DEBUG "Creating SSH Client" st) as ([] & st0 & Hlog).
  pose proof (offline_log DEBUG "Creating SSH Client" st) as Hreq.
  run. unfold logger_debug. rewrite Hlog in Hreq |- *. cbn [snd] in Hreq.
  unfold getattr_self. run.
  destruct (_hostname (self st0)) as [h|];
    [|exists []; cbn; rewrite Hreq, app_nil_r; auto].
  run. destruct (_username (self st0)) as [u|];
    [|exists []; cbn; rewrite Hreq, app_nil_r; auto].
  unfold connect. run. exists [Connect h u]. split; [|eauto].
  destruct (connect_answer host (requests (world st0)) h u);
    cbn; by rewrite Hreq.
Qed.

(** ** Running one command *)

(** A command that was sent is the last request; before it there is at most
    the connection. *)
Lemma send_command_requests (host : Host) (command : string)
    (st st1 : State) (r : list string * Z) :
  send_command host command st = (inr r, st1) →
  ∃ pre,
    requests (world st1) = requests (world st) ++ pre ++ [ExecCommand command]
    ∧ (pre = [] ∨ ∃ h u, pre = [Connect h u]).
Proof.
  unfold send_command, logger_info. rewrite run_bind.
  destruct (never_raises_log INFO ("Executing " +:+ command +:+ " command") st)
    as ([] & st0 & Hlog).
  pose proof (offline_log INFO ("Executing " +:+ command +:+ " command") st)
    as Hreq0.
  rewrite Hlog in Hreq0 |- *. cbn [snd] in Hreq0.
  unfold try_except_SSHException. rewrite run_bind.
  destruct (_ssh_client_requests host st0) as (pre & Hreq & Hpre).
  destruct (_ssh_client host st0) as [[e|client] st0'] eqn:Hclient.
  { destruct (is_SSHException e); [|done].
    unfold logger_exception. run.
    by destruct (never_raises_log ERROR (exn_str e) st0') as ([] & ? & ->). }
  cbn [snd] in Hreq. unfold exec_command. run.
  destruct (exec_answer host (requests (world st0')) command) as [e|r'].
  { cbn [raise]. destruct (is_SSHException e); [|done].
    unfold logger_exception. run.
    match goal with
    | |- context [log ERROR ?m ?s] =>
        by destruct (never_raises_log ERROR m s) as ([] & ? & ->)
    end. }
  intros [= <- <-]. exists pre. split; [|done]. cbn.
  by rewrite Hreq, Hreq0, <- app_assoc.
Qed.

(** [_ssh_exec] once its command was sent: the outcome depends on the exit
    status alone, no further request is made, and the log file holds the
    output of this command. *)
Lemma _ssh_exec_run (host : Host) (command : string) (k : Z)
    (st st1 st2 : State) (stdout : list string) (exit_status : Z)
    (name : string) :
  send_command host command st = (inr (stdout, exit_status), st1) →
  _log_file_name st1 = (inr name, st2) →
  ∃ st',
    _ssh_exec host command k st =
      (if bool_decide (exit_status > k)
       then inl (SSHExecException (exit_status_message command exit_status))
       else inr tt, st')
    ∧ requests (world st') = requests (world st1)
    ∧ files (world st') !! name = Some (log_text stdout)
    ∧ self st' = self st2.
Proof.
  intros Hsend Hname. unfold _ssh_exec.
  rewrite (run_bind_ok _ _ _ _ _ Hsend). cbv beta iota. rewrite run_bind.
  destruct (with_log_file_write_lines command stdout st1 st2 name Hname)
    as (st3 & -> & Hfile & Hreq & Hself).
  fold (exit_status_message command exit_status).
  set (msg := if bool_decide (exit_status > k)
              then exit_status_message command exit_status
              else "Command " +:+ command +:+ " Executed").
  set (lvl := if bool_decide (exit_status > k) then ERROR else INFO).
  destruct (never_raises_log lvl msg st3) as ([] & st4 & Hlog).
  pose proof (offline_log lvl msg st3) as Hreq4.
  pose proof (keeps_files_log lvl msg st3) as Hfiles4.
  pose proof (log_keeps_self lvl msg st3) as Hself4.
  rewrite Hlog in Hreq4, Hfiles4, Hself4. cbn [snd] in Hreq4, Hfiles4, Hself4.
  exists st4. subst msg lvl. unfold logger_exception, logger_info.
  split; [|split; [congruence|split; [by rewrite Hfiles4|congruence]]].
  case_bool_decide.
  - rewrite run_bind. by rewrite Hlog.
  - by rewrite Hlog.
Qed.

(** ** Claims about [_ssh_exec] *)

(** The exit status can be read back from the error text. *)
Lemma exit_status_message_inj (command : string) (s1 s2 : Z) :
  exit_status_message command s1 = exit_status_message command s2 → s1 = s2.
Proof.
  unfold exit_status_message. intros H.
  do 3 apply String.app_inj in H. by apply pretty_Z_inj in H.
Qed.

(** C1: once [run] (here [_ssh_exec]) has sent command [c] and the remote
    side answers with an exit status, the call returns normally when the
    status is at most the threshold [k]; when the status is greater than [k]
    it raises [SSHExecException] (the spec's CommandExecutionError) with a
    text that contains the command [c] and the decimal exit status. *)
Theorem ssh_exec_exit_code_policy (host : Host) (c : string) (k : Z)
    (st st1 : State) (stdout : list string) (exit_status : Z) :
  send_command host c st = (inr (stdout, exit_status), st1) →
  (exit_status ≤ k → ∃ st', _ssh_exec host c k st = (inr tt, st'))
  ∧ (exit_status > k →
     ∃ st' msg,
       _ssh_exec host c k st = (inl (SSHExecException msg), st')
       ∧ msg = exit_status_message c exit_status
       ∧ Str.contains msg c
       ∧ Str.contains msg (pretty exit_status)).
Proof.
  intros Hsend.
  destruct (never_raises__log_file_name st1) as (name & st2 & Hname).
  destruct (_ssh_exec_run host c k _ _ _ _ _ _ Hsend Hname) as (st' & Hrun & _).
  split; intros Hk.
  - exists st'. rewrite Hrun. by rewrite bool_decide_eq_false_2 by lia.
  - exists st', (exit_status_message c exit_status).
    rewrite Hrun, bool_decide_eq_true_2 by lia.
    split; [done|]. split; [done|]. split.
    + apply contains_middle.
    + unfold exit_status_message.
      rewrite <- !append_assoc. apply contains_end.
Qed.

(** C1 on two hosts: [tar] exits with 1 under the threshold 1, and with 2
    under the same threshold. *)
Lemma ssh_exec_exit_code_policy_witness :
  (∃ st',
     _ssh_exec obliging_host (archive_command "T") 1 left_by_constructor
     = (inr tt, st'))
  ∧ (∃ st' msg,
       _ssh_exec failing_tar_host (archive_command "T") 1 left_by_constructor
       = (inl (SSHExecException msg), st')
       ∧ msg = exit_status_message (archive_command "T") 2
       ∧ Str.contains msg (archive_command "T")
       ∧ Str.contains msg (pretty 2)).
Proof.
  split.
  - edestruct (ssh_exec_exit_code_policy obliging_host (archive_command "T") 1
                 left_by_constructor) as [Hle _];
      [vm_compute; reflexivity|].
    apply Hle. lia.
  - edestruct (ssh_exec_exit_code_policy failing_tar_host
                 (archive_command "T") 1 left_by_constructor) as [_ Hgt];
      [vm_compute; reflexivity|].
    apply Hgt. lia.
Defined.

(** [send_command] does not touch the name of the log file. *)
Lemma send_command_keeps_log_file_name (host : Host) (command : string)
    (st : State) :
  _log_file_name_cache (self (send_command host command st).2)
  = _log_file_name_cache (self st).
Proof.
  unfold send_command, logger_info. rewrite run_bind.
  set (msg := "Executing " +:+ command +:+ " command").
  destruct (never_raises_log INFO msg st) as ([] & st0 & Hlog).
  pose proof (log_keeps_self INFO msg st) as Hself0.
  rewrite Hlog in Hself0 |- *. cbn [snd] in Hself0. rewrite <- Hself0.
  assert (Hexn : ∀ e s,
    _log_file_name_cache
      (self ((if is_SSHException e
              then (logger_exception (exn_str e);; raise e) s
              else ((inl e, s) : (exn + (list string * Z)) * State)).2))
    = _log_file_name_cache (self s)).
  { intros e s. destruct (is_SSHException e); [|done].
    unfold logger_exception. rewrite run_bind.
    destruct (never_raises_log ERROR (exn_str e) s) as ([] & s' & Hlog').
    pose proof (log_keeps_self ERROR (exn_str e) s) as Hs.
    rewrite Hlog' in Hs |- *. cbn in Hs |- *. by rewrite Hs. }
  unfold try_except_SSHException, _ssh_client. run.
  destruct (_ssh_client_cache (self st0)) as [client|].
  - unfold exec_command. run.
    destruct (exec_answer host (requests (world st0)) command) as [e|r];
      [|done]. exact (Hexn e _).
  - run. unfold logger_debug.
    destruct (never_raises_log DEBUG "Creating SSH Client" st0)
      as ([] & st1 & Hlog1).
    pose proof (log_keeps_self DEBUG "Creating SSH Client" st0) as Hself1.
    rewrite Hlog1 in Hself1 |- *. cbn [snd] in Hself1. rewrite <- Hself1.
    unfold getattr_self. run.
    destruct (_hostname (self st1)) as [h|]; [|done].
    run. destruct (_username (self st1)) as [u|]; [|done].
    unfold connect. run.
    destruct (connect_answer host (requests (world st1)) h u) as [e|];
      [exact (Hexn e _)|].
    run. unfold exec_command. run.
    match goal with
    | |- context [exec_answer host ?rs command] =>
        destruct (exec_answer host rs command) as [e|r]
    end; [|done]. exact (Hexn e _).
Qed.

(** What [_ssh_exec] leaves in the log file, in general: after any call
    whose command was sent, the session's log file holds the lines of that
    command's output, each without its trailing newlines, in order and with
    nothing between them, and holds nothing of the commands run before: every
    call opens the file anew in mode [w+].  The file is the same one through
    the session: its name is kept by the instance after the call, and is the
    name an earlier call kept. *)
Theorem log_file_holds_last_command (host : Host) (c : string) (k : Z)
    (st st1 st2 : State) (stdout : list string) (exit_status : Z)
    (name : string) :
  send_command host c st = (inr (stdout, exit_status), st1) →
  _log_file_name st1 = (inr name, st2) →
  files (world (_ssh_exec host c k st).2) !! name = Some (log_text stdout)
  ∧ _log_file_name_cache (self (_ssh_exec host c k st).2) = Some name
  ∧ ∀ earlier,
      _log_file_name_cache (self st) = Some earlier → earlier = name.
Proof.
  intros Hsend Hname.
  destruct (_ssh_exec_run host c k _ _ _ _ _ _ Hsend Hname)
    as (st' & -> & _ & Hfile & Hself).
  destruct (_log_file_name_cached _ _ _ Hname) as [Hcached Hearlier].
  cbn [snd]. split; [done|]. split; [by rewrite Hself|].
  intros earlier Hst. apply Hearlier.
  pose proof (send_command_keeps_log_file_name host c st) as Hkeep.
  rewrite Hsend in Hkeep. cbn [snd] in Hkeep. by rewrite Hkeep.
Qed.

(** On the second command of a session. *)
Lemma log_file_holds_last_command_witness :
  files (world (_ssh_exec echo_host "second" 0 after_first_command).2)
    !! "hass_remote_mgmt.2024-05-01T12:00:00.log"
  = Some (log_text ["second" +:+ chr LF])
  ∧ _log_file_name_cache
      (self (_ssh_exec echo_host "second" 0 after_first_command).2)
    = Some "hass_remote_mgmt.2024-05-01T12:00:00.log"
  ∧ ∀ earlier,
      _log_file_name_cache (self after_first_command) = Some earlier →
      earlier = "hass_remote_mgmt.2024-05-01T12:00:00.log".
Proof.
  eapply (log_file_holds_last_command echo_host "second" 0
            after_first_command).
  - vm_compute. reflexivity.
  - vm_compute. reflexivity.
Defined.

(** C3, what the code does: two commands run in one session, the first
    prints [first], the second prints [second]; both write to the one log
    file of the session, and when the second call returns the file holds
    [second] and not [firstsecond]: opening it in mode [w+] has discarded
    what the first command wrote. *)
Lemma log_file_loses_earlier_commands :
  (_ssh_exec echo_host "second" 0 after_first_command).1 = inr tt
  ∧ files (world after_first_command)
      !! "hass_remote_mgmt.2024-05-01T12:00:00.log"
    = Some "first"
  ∧ files (world (_ssh_exec echo_host "second" 0 after_first_command).2)
      !! "hass_remote_mgmt.2024-05-01T12:00:00.log"
    = Some "second"
  ∧ files (world (_ssh_exec echo_host "second" 0 after_first_command).2)
      !! "hass_remote_mgmt.2024-05-01T12:00:00.log"
    ≠ Some (log_text ["first" +:+ chr LF; "second" +:+ chr LF]).
Proof.
  split; [by vm_compute|]. split; [by vm_compute|].
  split; [by vm_compute|]. vm_compute. discriminate.
Qed.

(** ** Claims about [backup] *)

Lemma run_bind_assoc {A B C : Type} (m : M A) (f : A → M B) (g : B → M C)
    (st : State) :
  ((m ≫= f) ≫= g) st = (m ≫= λ a, f a ≫= g) st.
Proof. rewrite !run_bind. by destruct (m st) as [[e|a] st']. Qed.

Lemma archive_is_not_compress (now : string) :
  archive_command now ≠ compress_command now.
Proof. intros H. vm_compute in H. discriminate H. Qed.

Lemma archive_is_not_cleanup (now : string) :
  archive_command now ≠ cleanup_command now.
Proof. intros H. vm_compute in H. discriminate H. Qed.

(** C9: when the archive command of [backup] is sent and comes back with an
    exit status above its allowance of 1 (the claim's case is status 2),
    [backup] raises the [SSHExecException] of that command, and the requests
    it has made are the connection, if there was none yet, and the archive
    command: the compress command, the download and the cleanup command are
    never asked for. *)
Theorem backup_aborts_after_failed_archive (host : Host)
    (st st0 st1 : State) (now : string) (stdout : list string)
    (exit_status : Z) :
  (logger_info "Entering in backup mode";; _now_iso8601) st = (inr now, st0) →
  send_command host (archive_command now) st0
    = (inr (stdout, exit_status), st1) →
  exit_status > 1 →
  ∃ st' pre,
    let sent := pre ++ [ExecCommand (archive_command now)] in
    backup host st
      = (inl (SSHExecException
                (exit_status_message (archive_command now) exit_status)), st')
    ∧ requests (world st') = requests (world st) ++ sent
    ∧ (pre = [] ∨ ∃ h u, pre = [Connect h u])
    ∧ (ExecCommand (compress_command now) ∉ sent)
    ∧ (∀ src dest, SftpGet src dest ∉ sent)
    ∧ (ExecCommand (cleanup_command now) ∉ sent).
Proof.
  intros Hstart Hsend Hstatus.
  destruct (never_raises__log_file_name st1) as (name & st2 & Hname).
  destruct (_ssh_exec_run host _ 1 _ _ _ _ _ _ Hsend Hname)
    as (st' & Hrun & Hreq & _).
  rewrite bool_decide_eq_true_2 in Hrun by lia.
  destruct (send_command_requests _ _ _ _ _ Hsend) as (pre & Hreq1 & Hpre).
  assert (Hreq0 : requests (world st0) = requests (world st)).
  { pose proof (offline_bind (logger_info "Entering in backup mode")
                  (λ _, _now_iso8601) (offline_log _ _)
                  (λ _, offline__now_iso8601) st) as H.
    by rewrite Hstart in H. }
  exists st', pre. cbv zeta. split; [|split; [|split; [done|]]].
  - unfold backup. rewrite <- run_bind_assoc.
    rewrite (run_bind_ok _ _ _ _ _ Hstart).
    by rewrite (run_bind_raise _ _ _ _ _ Hrun).
  - by rewrite Hreq, Hreq1, Hreq0.
  - pose proof (archive_is_not_compress now).
    pose proof (archive_is_not_cleanup now).
    destruct Hpre as [->|(h & u & ->)]; cbn [app];
      repeat split; intros; rewrite ?elem_of_cons, elem_of_nil;
      intuition congruence.
Qed.

(** C9 on a host whose [tar] exits with 2. *)
Lemma backup_aborts_after_failed_archive_witness :
  ∃ st' pre,
    backup failing_tar_host left_by_constructor
      = (inl (SSHExecException
                (exit_status_message
                   (archive_command "2024-05-01T12:00:00") 2)), st')
    ∧ requests (world st')
      = requests (world left_by_constructor)
          ++ pre ++ [ExecCommand (archive_command "2024-05-01T12:00:00")]
    ∧ (pre = [] ∨ ∃ h u, pre = [Connect h u])
    ∧ (ExecCommand (compress_command "2024-05-01T12:00:00")
         ∉ pre ++ [ExecCommand (archive_command "2024-05-01T12:00:00")])
    ∧ (∀ src dest,
         SftpGet src dest
           ∉ pre ++ [ExecCommand (archive_command "2024-05-01T12:00:00")])
    ∧ (ExecCommand (cleanup_command "2024-05-01T12:00:00")
         ∉ pre ++ [ExecCommand (archive_command "2024-05-01T12:00:00")]).
Proof.
  eapply (backup_aborts_after_failed_archive failing_tar_host
            left_by_constructor).
  - vm_compute. reflexivity.
  - vm_compute. reflexivity.
  - lia.
Defined.

Lemma last_char_append (s t : string) :
  t ≠ EmptyString → last_char (s +:+ t) = last_char t.
Proof.
  intros Ht. induction s as [|a s IH]; [done|].
  rewrite append_cons. cbn [last_char]. rewrite IH.
  destruct (s +:+ t) eqn:Happ; [|done].
  destruct s; [done|by rewrite append_cons in Happ].
Qed.

(** Whatever the timestamp, the remote path [backup] gives to [_scp] ends in
    [.back.tar], and so not in [.tar.bz2]; the local path does. *)
Lemma fetch_src_not_bz2 (now : string) :
  Str.endswith (fetch_src now) ".tar.bz2" = false
  ∧ Str.endswith (fetch_dest now) ".tar.bz2" = true.
Proof.
  split.
  - apply not_true_is_false. rewrite endswith_spec. intros [p Hp].
    apply (f_equal last_char) in Hp. unfold fetch_src in Hp.
    rewrite <- append_assoc in Hp.
    rewrite (last_char_append _ ".back.tar") in Hp by done.
    rewrite (last_char_append p ".tar.bz2") in Hp by done.
    discriminate Hp.
  - apply endswith_spec. exists ("homeassistant-" +:+ now +:+ ".back").
    unfold fetch_dest. by rewrite !append_assoc.
Qed.

(** C2, what the code does: on a host where every step succeeds, the third
    request of [backup] after the connection is the download of
    [/tmp/homeassistant-<ts>.back.tar], the file the bzip2 step has just
    replaced by [/tmp/homeassistant-<ts>.back.tar.bz2]; the remote path does
    not end in [.tar.bz2], only the local path does. *)
Theorem backup_fetches_uncompressed_path :
  requests (world (backup obliging_host with_progress_bar_None).2)
  = [Connect "host" "user";
     ExecCommand (archive_command "2024-05-01T12:00:00");
     ExecCommand (compress_command "2024-05-01T12:00:00");
     SftpGet "/tmp/homeassistant-2024-05-01T12:00:00.back.tar"
             "homeassistant-2024-05-01T12:00:00.back.tar.bz2";
     ExecCommand (cleanup_command "2024-05-01T12:00:00")]
  ∧ compress_command "2024-05-01T12:00:00"
    = "sudo bzip2 /tmp/homeassistant-2024-05-01T12:00:00.back.tar"
  ∧ Str.endswith "/tmp/homeassistant-2024-05-01T12:00:00.back.tar" ".tar.bz2"
    = false.
Proof. by vm_compute. Qed.

(** C4, what the code does: the end-to-end run on a host where [tar] exits
    with 1 and everything else succeeds stops in the constructor with
    [NameError], before any request and with no local archive; and [backup]
    called on the object the constructor leaves behind sends the archive and
    compress commands, asks for the download and raises [AttributeError] in
    the first progress callback: the workflow does not complete, and the
    cleanup command is never sent. *)
Theorem end_to_end_backup_raises :
  main obliging_host ["-b"; "user@host"] (initial_state at_noon)
  = (inl (NameError "_None"), left_by_constructor)
  ∧ requests (world left_by_constructor) = []
  ∧ files (world left_by_constructor)
      !! "homeassistant-2024-05-01T12:00:00.back.tar.bz2" = None
  ∧ (backup obliging_host left_by_constructor).1
    = inl (AttributeError "_progress_bar")
  ∧ requests (world (backup obliging_host left_by_constructor).2)
    = [Connect "host" "user";
       ExecCommand (archive_command "2024-05-01T12:00:00");
       ExecCommand (compress_command "2024-05-01T12:00:00");
       SftpGet "/tmp/homeassistant-2024-05-01T12:00:00.back.tar"
               "homeassistant-2024-05-01T12:00:00.back.tar.bz2"].
Proof. by vm_compute. Qed.

(** With the third attribute set to [None] by hand the same workflow
    completes and the local archive is written. *)
Lemma backup_completes_with_progress_bar_None :
  (backup obliging_host with_progress_bar_None).1 = inr tt
  ∧ files (world (backup obliging_host with_progress_bar_None).2)
      !! "homeassistant-2024-05-01T12:00:00.back.tar.bz2" = Some "BZh91AY".
Proof. by vm_compute. Qed.

(** ** Claims about the [__main__] block *)

(** *** The parser *)

Lemma option_string_action_not_host (option_string : string)
    (a : argparse.action) :
  argparse.option_string_action option_string = Some a → a ≠ argparse.host.
Proof.
  intros Ha ->. revert Ha. unfold argparse.option_string_action.
  cbn [argparse._option_string_actions List.find fst snd].
  repeat case_bool_decide; by intros [=].
Qed.

Lemma _option_string_actions_known :
  Forall (λ entry, entry.2 ≠ argparse.host) argparse._option_string_actions.
Proof. by repeat constructor. Qed.

Lemma _get_option_tuples_known (arg_string : string) (a : argparse.action)
    (option_string : string) (explicit_arg : option string) :
  (Some a, option_string, explicit_arg)
    ∈ argparse._get_option_tuples arg_string →
  a ≠ argparse.host.
Proof.
  pose proof _option_string_actions_known as Hknown.
  rewrite Forall_forall in Hknown.
  unfold argparse._get_option_tuples.
  destruct (argparse.second_is_dash arg_string).
  - destruct (match argparse.split_once "=" arg_string with
              | Some (p, e) => (p, Some e)
              | None => (arg_string, None)
              end) as [option_prefix explicit].
    rewrite list_elem_of_omap. intros ([os a'] & Hin & Hsome).
    cbn [fst snd] in Hsome. destruct (String.prefix _ _); [|done].
    injection Hsome as <- _ _. by apply (Hknown _ Hin).
  - rewrite list_elem_of_omap. intros ([os a'] & Hin & Hsome).
    cbn [fst snd] in Hsome. case_bool_decide.
    + injection Hsome as <- _ _. by apply (Hknown _ Hin).
    + destruct (String.prefix _ _); [|done].
      injection Hsome as <- _ _. by apply (Hknown _ Hin).
Qed.

Lemma _parse_optional_known (arg_string : string) (a : argparse.action)
    (option_string : string) (explicit_arg : option string) :
  argparse._parse_optional arg_string
  = inr (Some (Some a, option_string, explicit_arg)) →
  a ≠ argparse.host.
Proof.
  unfold argparse._parse_optional.
  destruct arg_string as [|first rest]; [done|].
  destruct (negb _); [done|].
  destruct (argparse.option_string_action (String first rest)) as [a'|] eqn:Ha.
  { intros [= <- <- <-]. by eapply option_string_action_not_host. }
  case_bool_decide; [done|].
  assert (Htuples :
    match argparse._get_option_tuples (String first rest) with
    | _ :: _ :: _ => argparse.error
    | [tuple] => inr (Some tuple)
    | [] =>
        if argparse._negative_number_matcher (String first rest)
        then inr None
        else if argparse.has_char " " (String first rest) then inr None
        else inr (Some (None, String first rest, None))
    end = inr (Some (Some a, option_string, explicit_arg)) →
    a ≠ argparse.host).
  { pose proof (_get_option_tuples_known (String first rest) a option_string
                  explicit_arg) as Hknown.
    destruct (argparse._get_option_tuples (String first rest))
      as [|tuple [|? ?]]; [by repeat case_match| |done].
    intros [= ->]. apply Hknown. by apply list_elem_of_singleton. }
  destruct (argparse.split_once "=" (String first rest)) as [[os ea]|];
    [|exact Htuples].
  destruct (argparse.option_string_action os) as [a'|] eqn:Ha';
    [|exact Htuples].
  intros [= <- <- <-]. by eapply option_string_action_not_host.
Qed.

Lemma arg_strings_pattern_fresh (arg_strings : list string) :
  ∀ parts,
    argparse.arg_strings_pattern arg_strings = inr parts →
    fresh parts ∧ options_known parts.
Proof.
  induction arg_strings as [|arg_string rest IH]; intros parts;
    cbn [argparse.arg_strings_pattern].
  - intros [= <-]. split; [done|constructor].
  - case_bool_decide as Hdash.
    + intros [= <-]. split.
      * split; [done|]. by apply Forall_fmap, Forall_true.
      * constructor; [done|]. by apply Forall_fmap, Forall_true.
    + destruct (argparse._parse_optional arg_string) as [e|tuple] eqn:Htuple;
        [done|].
      destruct (argparse.arg_strings_pattern rest) as [e|parts']; [done|].
      intros [= <-]. destruct (IH _ eq_refl) as [Hfresh Hknown]. split.
      * by destruct tuple.
      * constructor; [|done]. cbn. intros os ea.
        destruct tuple as [[[[a|] os'] ea']|]; try done.
        intros [= -> -> ->].
        by apply (_parse_optional_known _ _ _ _ Htuple).
Qed.

Lemma arg_strings_pattern_exits (arg_strings : list string) (e : exn) :
  argparse.arg_strings_pattern arg_strings = inl e → exits e.
Proof.
  induction arg_strings as [|arg_string rest IH];
    cbn [argparse.arg_strings_pattern]; [done|].
  case_bool_decide; [done|].
  destruct (argparse._parse_optional arg_string) as [e'|tuple] eqn:Htuple.
  - intros [= <-]. revert Htuple. unfold argparse._parse_optional.
    repeat case_match; try done; intros [= <-]; by right.
  - destruct (argparse.arg_strings_pattern rest) as [e'|parts']; [|done].
    intros [= <-]. by apply IH.
Qed.

Lemma next_option_spec (parts : list (string * argparse.pattern)) :
  ∀ before arg_string tuple after,
    argparse.next_option parts = Some (before, (arg_string, tuple), after) →
    parts = before ++ (arg_string, argparse.O tuple) :: after
    ∧ (fresh parts → fresh after).
Proof.
  induction parts as [|[s k] parts IH]; intros before arg_string tuple after;
    cbn [argparse.next_option]; [done|].
  destruct k as [|t|].
  - destruct (argparse.next_option parts) as [[[b [s' t']] a]|]; [|done].
    intros [= <- <- <- <-].
    destruct (IH _ _ _ _ eq_refl) as [-> Hfresh]. split; [done|].
    intros [_ H]. by apply Hfresh.
  - by intros [= <- <- <- <-].
  - destruct (argparse.next_option parts) as [[[b [s' t']] a]|]; [|done].
    intros [= <- <- <- <-].
    destruct (IH _ _ _ _ eq_refl) as [-> Hfresh]. split; [done|].
    intros [_ HA]. apply Forall_app in HA as [_ HA].
    by apply Forall_cons in HA as [? _].
Qed.

(** An action that is taken and is not the positional. *)
Lemma take_action_ok (a : argparse.action) (p : argparse.parsing) :
  a ≠ argparse.host →
  parsing_ok p →
  match argparse.take_action a [] p with
  | inl e => exits e
  | inr p' => parsing_ok p'
              ∧ argparse.positionals p' = argparse.positionals p
  end.
Proof.
  intros Ha (d & b & v & h & (Hd & Hb & Hv & Hh) & Hds & Hbs & Hdb & Hpos).
  unfold argparse.take_action.
  destruct a; cbn [argparse.action_conflicts existsb orb]; try done.
  - by left.
  - (* deploy *)
    case_bool_decide as Hin; cbn [orb]; [by right|].
    split; [|done]. exists true, b, v, h. unfold parsed. cbn.
    rewrite lookup_insert_eq, !lookup_insert_ne by done.
    split; [done|]. split; [by rewrite elem_of_cons; intuition|].
    split.
    { rewrite elem_of_cons, <- Hbs. intuition congruence. }
    split.
    { destruct b; [|done]. exfalso. apply Hin.
      rewrite elem_of_cons. right. by apply Hbs. }
    destruct Hpos as [Hpos|[Hpos Hseen]]; [by left|right].
    split; [done|]. rewrite elem_of_cons. intuition congruence.
  - (* backup *)
    case_bool_decide as Hin; cbn [orb]; [by right|].
    split; [|done]. exists d, true, v, h. unfold parsed. cbn.
    rewrite lookup_insert_eq, !lookup_insert_ne by done.
    split; [done|]. split.
    { rewrite elem_of_cons, <- Hds. intuition congruence. }
    split; [by rewrite elem_of_cons; intuition|].
    split.
    { destruct d; [|done]. exfalso. apply Hin.
      rewrite elem_of_cons. right. by apply Hds. }
    destruct Hpos as [Hpos|[Hpos Hseen]]; [by left|right].
    split; [done|]. rewrite elem_of_cons. intuition congruence.
  - (* verbose *)
    split; [|done]. exists d, b, true, h. unfold parsed. cbn.
    rewrite lookup_insert_eq, !lookup_insert_ne by done.
    split; [done|]. split.
    { rewrite elem_of_cons, <- Hds. intuition congruence. }
    split.
    { rewrite elem_of_cons, <- Hbs. intuition congruence. }
    split; [done|].
    destruct Hpos as [Hpos|[Hpos Hseen]]; [by left|right].
    split; [done|]. rewrite elem_of_cons. intuition congruence.
Qed.

Lemma more_options_known (explicit_arg : string) :
  ∀ action_tuples,
    argparse.more_options explicit_arg = inr action_tuples →
    Forall (λ a, a ≠ argparse.host) action_tuples.
Proof.
  induction explicit_arg as [|c rest IH]; intros action_tuples;
    cbn [argparse.more_options].
  - by intros [= <-].
  - destruct (argparse.option_string_action _) as [a|] eqn:Ha; [|done].
    destruct (argparse.more_options rest) as [e|more]; [done|].
    intros [= <-]. constructor; [|by apply IH].
    by eapply option_string_action_not_host.
Qed.

Lemma more_options_exits (explicit_arg : string) (e : exn) :
  argparse.more_options explicit_arg = inl e → exits e.
Proof.
  induction explicit_arg as [|c rest IH]; cbn [argparse.more_options];
    [done|].
  destruct (argparse.option_string_action _) as [a|];
    [|intros [= <-]; by right].
  destruct (argparse.more_options rest) as [e'|more]; [|done].
  intros [= <-]. by apply IH.
Qed.

Lemma take_actions_ok (action_tuples : list argparse.action) :
  ∀ p : argparse.parsing,
    Forall (λ a, a ≠ argparse.host) action_tuples →
    parsing_ok p →
    match argparse.take_actions action_tuples p with
    | inl e => exits e
    | inr p' => parsing_ok p'
                ∧ argparse.positionals p' = argparse.positionals p
    end.
Proof.
  induction action_tuples as [|a rest IH]; intros p Hall Hok;
    cbn [argparse.take_actions]; [done|].
  apply Forall_cons in Hall as [Ha Hall].
  pose proof (take_action_ok a p Ha Hok) as Hstep.
  destruct (argparse.take_action a [] p) as [e|p1]; [done|].
  destruct Hstep as [Hok1 Hpos1].
  specialize (IH p1 Hall Hok1).
  destruct (argparse.take_actions rest p1) as [e|p2]; [done|].
  destruct IH as [Hok2 Hpos2]. split; [done|]. congruence.
Qed.

Lemma consume_optional_ok (arg_string : string)
    (tuple : argparse.option_tuple) (p : argparse.parsing) :
  (∀ option_string explicit_arg,
     tuple ≠ (Some argparse.host, option_string, explicit_arg)) →
  parsing_ok p →
  match argparse.consume_optional arg_string tuple p with
  | inl e => exits e
  | inr p' => parsing_ok p'
              ∧ argparse.positionals p' = argparse.positionals p
  end.
Proof.
  intros Hknown Hok. destruct tuple as [[[a|] option_string] [explicit_arg|]];
    cbn [argparse.consume_optional]; [| |done..].
  - assert (Ha : a ≠ argparse.host) by (intros ->; by eapply Hknown).
    destruct (_ && _); [|by right].
    destruct (argparse.more_options explicit_arg) as [e|more] eqn:Hmore;
      [by eapply more_options_exits|].
    apply take_actions_ok; [|done]. constructor; [done|].
    by eapply more_options_known.
  - assert (Ha : a ≠ argparse.host) by (intros ->; by eapply Hknown).
    apply take_actions_ok; [|done]. by repeat constructor.
Qed.

Lemma dashes_arguments (parts : list (string * argparse.pattern)) :
  Forall (λ part, part.2 = argparse.A) parts → argparse.dashes parts = 0%nat.
Proof. by intros [|[s k] rest [= ->] _]. Qed.

(** The strings the positional takes from a pattern of the first loop hold
    one string beside the ["--"]. *)
Lemma match_positional_value (parts : list (string * argparse.pattern))
    (arg_count : nat) :
  fresh parts →
  argparse.match_positional parts = Some arg_count →
  ∃ value,
    argparse._get_values (fst <$> take arg_count parts) = AStr value.
Proof.
  unfold argparse.match_positional.
  destruct parts as [|[s [|tuple|]] rest]; cbn [fresh]; [done| |done|].
  - intros [Hs Hrest]. cbn. intros [= <-].
    destruct rest as [|[s' [|tuple|]] rest']; cbn.
    + exists s. unfold argparse._get_values. cbn. by rewrite decide_False.
    + exists s. unfold argparse._get_values. cbn. by rewrite decide_False.
    + exists s. unfold argparse._get_values. cbn. by rewrite decide_False.
    + destruct Hrest as [-> Hrest']. rewrite (dashes_arguments _ Hrest').
      exists s. unfold argparse._get_values. cbn. by rewrite decide_False.
  - intros [-> Hrest]. cbn [argparse.dashes argparse.is_dash snd].
    rewrite (dashes_arguments _ Hrest). cbn [drop].
    destruct rest as [|[s' k] rest']; [done|].
    apply Forall_cons in Hrest as [Hk Hrest']. cbn in Hk. subst k.
    cbn [drop]. rewrite (dashes_arguments _ Hrest'). intros [= <-].
    by exists s'.
Qed.

Lemma consume_positionals_ok (parts : list (string * argparse.pattern))
    (p : argparse.parsing) :
  parsing_ok p →
  (argparse.positionals p = [argparse.host] → fresh parts) →
  match argparse.consume_positionals parts p with
  | inl e => exits e
  | inr (p', parts') =>
      parsing_ok p'
      ∧ (∃ arg_count, parts' = drop arg_count parts)
      ∧ (argparse.positionals p' = [argparse.host] →
         p' = p ∧ parts' = parts)
  end.
Proof.
  intros Hok Hfresh. unfold argparse.consume_positionals.
  destruct (argparse.positionals p) as [|a others] eqn:Hpos.
  { split; [done|]. split; [by exists 0%nat|done]. }
  pose proof Hok as Hok'.
  destruct Hok as (d & b & v & h & (Hd & Hb & Hv & Hh) & Hds & Hbs & Hdb
                   & [[Hnil _]|[Hhost Hseen]]); [congruence|].
  rewrite Hpos in Hhost. injection Hhost as -> ->.
  destruct (argparse.match_positional parts) as [arg_count|] eqn:Hmatch.
  2: { split; [done|]. split; [by exists 0%nat|done]. }
  destruct (match_positional_value parts arg_count (Hfresh eq_refl) Hmatch)
    as [value Hvalue].
  unfold argparse.take_action. cbn [argparse.action_conflicts existsb].
  cbn. split; [|split; [by exists arg_count|done]].
  exists d, b, v, (Some value). unfold parsed. cbn.
  rewrite Hvalue, lookup_insert_eq, !lookup_insert_ne by done.
  split; [done|]. split.
  { rewrite elem_of_cons, <- Hds. intuition congruence. }
  split.
  { rewrite elem_of_cons, <- Hbs. intuition congruence. }
  split; [done|]. left. by eauto.
Qed.

Lemma consume_ok (rounds : nat) :
  ∀ (parts : list (string * argparse.pattern)) (p : argparse.parsing),
    parsing_ok p →
    (argparse.positionals p = [argparse.host] → fresh parts) →
    options_known parts →
    match argparse.consume rounds parts p with
    | inl e => exits e
    | inr (p', parts') =>
        parsing_ok p'
        ∧ (argparse.positionals p' = [argparse.host] → fresh parts')
    end.
Proof.
  induction rounds as [|rounds IH]; intros parts p Hok Hfresh Hknown;
    cbn [argparse.consume]; [done|].
  destruct (argparse.next_option parts)
    as [[[before [arg_string tuple]] after]|] eqn:Hnext; [|done].
  destruct (next_option_spec _ _ _ _ _ Hnext) as [Hparts Hafter].
  assert (Htuple : ∀ option_string explicit_arg,
             tuple ≠ (Some argparse.host, option_string, explicit_arg)).
  { intros os ea ->. unfold options_known in Hknown. rewrite Hparts in Hknown.
    apply Forall_app in Hknown as [_ Hknown].
    apply Forall_cons in Hknown as [Hknown _]. by apply (Hknown os ea). }
  assert (Hknown_after : options_known after).
  { unfold options_known in *. rewrite Hparts in Hknown.
    apply Forall_app in Hknown as [_ Hknown].
    by apply Forall_cons in Hknown as [_ Hknown]. }
  assert (Hoption : ∀ p0,
    parsing_ok p0 →
    (argparse.positionals p0 = [argparse.host] → fresh parts) →
    match
      match argparse.consume_optional arg_string tuple p0 with
      | inl e => inl e
      | inr p' => argparse.consume rounds after p'
      end
    with
    | inl e => exits e
    | inr (p', parts') =>
        parsing_ok p'
        ∧ (argparse.positionals p' = [argparse.host] → fresh parts')
    end).
  { intros p0 Hok0 Hfresh0.
    pose proof (consume_optional_ok arg_string tuple p0 Htuple Hok0) as Hstep.
    destruct (argparse.consume_optional arg_string tuple p0) as [e|p1];
      [done|].
    destruct Hstep as [Hok1 Hpos1]. apply IH; [done| |done].
    rewrite Hpos1. auto. }
  destruct before as [|part before].
  { by apply Hoption. }
  pose proof (consume_positionals_ok parts p Hok Hfresh) as Hstep.
  destruct (argparse.consume_positionals parts p) as [e|[p1 parts1]];
    [done|].
  destruct Hstep as (Hok1 & [arg_count ->] & Hpending).
  case_bool_decide as Hshorter.
  - apply IH; [done| |by apply Forall_drop].
    intros Hpos. destruct (Hpending Hpos) as [-> ->]. auto.
  - match goal with
    | |- context [argparse.consume_optional arg_string tuple ?p0] =>
        apply (Hoption p0)
    end.
    + destruct Hok1 as (d & b & v & h & Hrest). by exists d, b, v, h.
    + cbn. intros Hpos. destruct (Hpending Hpos) as [-> _]. auto.
Qed.

(** The loop is left when no option is left: its rounds are enough. *)
Lemma consume_leaves_no_option (rounds : nat) :
  ∀ (parts parts' : list (string * argparse.pattern))
    (p p' : argparse.parsing),
    (length parts ≤ rounds)%nat →
    argparse.consume rounds parts p = inr (p', parts') →
    argparse.next_option parts' = None.
Proof.
  induction rounds as [|rounds IH]; intros parts parts' p p' Hlen;
    cbn [argparse.consume].
  { destruct parts; [|cbn in Hlen; lia]. by intros [= <- <-]. }
  destruct (argparse.next_option parts)
    as [[[before [arg_string tuple]] after]|] eqn:Hnext;
    [|by intros [= <- <-]].
  destruct (next_option_spec _ _ _ _ _ Hnext) as [Hparts _].
  assert (Hafter : (length after ≤ rounds)%nat).
  { rewrite Hparts, length_app in Hlen. cbn in Hlen. lia. }
  destruct before as [|part before].
  { destruct (argparse.consume_optional arg_string tuple p) as [e|p1];
      [done|]. by apply IH. }
  destruct (argparse.consume_positionals parts p) as [e|[p1 parts1]];
    [done|].
  case_bool_decide as Hshorter.
  - apply IH. lia.
  - destruct (argparse.consume_optional arg_string tuple _) as [e|p2];
      [done|]. by apply IH.
Qed.

Lemma parsing_ok_initial :
  parsing_ok
    {| argparse.namespace := default_namespace;
       argparse.seen_actions := [];
       argparse.seen_non_default_actions := [];
       argparse.positionals := [argparse.host];
       argparse.extras := [] |}.
Proof.
  exists false, false, false, None. split; [done|]. cbn.
  split; [split; [done|by intros ?%elem_of_nil]|].
  split; [split; [done|by intros ?%elem_of_nil]|].
  split; [done|]. right. split; [done|]. by intros ?%elem_of_nil.
Qed.

(** What [argparse] does with a command line: it exits, with status 0 or
    2, or returns a namespace with a host and exactly one of the flags
    [deploy] and [backup] set. *)
Lemma argparse_parse_args_parsed (args : list string) :
  match argparse.parse_args args with
  | inl e => exits e
  | inr ns => ∃ d b v h, parsed ns d b v (Some h) ∧ xorb d b = true
  end.
Proof.
  unfold argparse.parse_args, argparse.parse_known_args,
    argparse._parse_known_args.
  destruct (argparse.arg_strings_pattern args) as [e|parts] eqn:Hparts.
  { by eapply arg_strings_pattern_exits. }
  destruct (arg_strings_pattern_fresh _ _ Hparts) as [Hfresh Hknown].
  match goal with
  | |- context [argparse.consume _ _ ?p0] =>
      pose proof (consume_ok (length parts) parts p0) as Hloop
  end.
  destruct (argparse.consume _ _ _) as [e|[p1 parts1]].
  { apply Hloop; [apply parsing_ok_initial|done..]. }
  destruct Hloop as [Hok1 Hfresh1]; [apply parsing_ok_initial|done..|].
  pose proof (consume_positionals_ok parts1 p1 Hok1 Hfresh1) as Hlast.
  destruct (argparse.consume_positionals parts1 p1) as [e|[p2 parts2]];
    [done|].
  destruct Hlast as ((d & b & v & h & Hparsed & Hds & Hbs & Hdb & Hpos) & _).
  case_bool_decide as Hhost; cbn [negb]; [|by right].
  do 2 case_bool_decide; cbn [negb andb]; try by right.
  all: destruct (argparse.extras p2 ++ parts2.*1); [|by right].
  all: destruct Hpos as [[_ [value ->]]|[_ Hseen]]; [|done].
  all: exists d, b, v, value; split; [done|].
  all: destruct d, b; try done.
  all: intuition congruence.
Qed.

(** Command lines as [argparse] reads them: the help exits with status 0,
    before an error that a later string would raise and after none; flags
    may be abbreviated or written together; after ["--"], and for a string
    that looks like a negative number or holds a space, a leading dash does
    not make an option. *)
Lemma argparse_parse_args_examples :
  argparse.parse_args ["-h"] = inl (SystemExit 0)
  ∧ argparse.parse_args ["--help"; "--bogus"] = inl (SystemExit 0)
  ∧ argparse.parse_args ["-b"; "-d"; "-h"] = inl (SystemExit 2)
  ∧ argparse.parse_args ["-bh"; "u@h"] = inl (SystemExit 0)
  ∧ argparse.parse_args ["-hx"] = inl (SystemExit 2)
  ∧ argparse.parse_args ["u@h"] = inl (SystemExit 2)
  ∧ argparse.parse_args ["-b"] = inl (SystemExit 2)
  ∧ argparse.parse_args ["-b"; "u@h"; "more"] = inl (SystemExit 2)
  ∧ argparse.parse_args ["-b"; "-x"; "u@h"] = inl (SystemExit 2)
  ∧ argparse.parse_args ["--backup=1"; "u@h"] = inl (SystemExit 2)
  ∧ argparse.parse_args ["-b"; "-1"]
    = inr (<["host" := AStr "-1"]>
             (<["backup" := ABool true]> default_namespace))
  ∧ argparse.parse_args ["--back"; "u@h"]
    = inr (<["host" := AStr "u@h"]>
             (<["backup" := ABool true]> default_namespace))
  ∧ argparse.parse_args ["--dep"; "u@h"]
    = inr (<["host" := AStr "u@h"]>
             (<["deploy" := ABool true]> default_namespace))
  ∧ argparse.parse_args ["-bv"; "u@h"]
    = inr (<["host" := AStr "u@h"]>
             (<["verbose" := ABool true]>
                (<["backup" := ABool true]> default_namespace)))
  ∧ argparse.parse_args ["u@h"; "-dv"]
    = inr (<["host" := AStr "u@h"]>
             (<["verbose" := ABool true]>
                (<["deploy" := ABool true]> default_namespace)))
  ∧ argparse.parse_args ["-b"; "--"; "u@h"]
    = inr (<["host" := AStr "u@h"]>
             (<["backup" := ABool true]> default_namespace))
  ∧ argparse.parse_args ["-d"; "--"; "-v"]
    = inr (<["host" := AStr "-v"]>
             (<["deploy" := ABool true]> default_namespace))
  ∧ argparse.parse_args ["-b"; "-x y@h"]
    = inr (<["host" := AStr "-x y@h"]>
             (<["backup" := ABool true]> default_namespace)).
Proof. repeat split; by vm_compute. Qed.



(** C7, what the code does: the command line [-d user@host] is accepted,
    its [deploy] attribute is [True] and its [backup] attribute is [False],
    and the operation chosen is [backup]. *)
Theorem deploy_flag_selects_backup :
  ∃ args,
    parse_args ["-d"; "user@host"] (initial_state at_noon)
    = (inr args, initial_state at_noon)
    ∧ args !! "deploy" = Some (ABool true)
    ∧ args !! "backup" = Some (ABool false)
    ∧ select_fn args = Some manager_backup.
Proof. eexists. split; [vm_compute; reflexivity|]. by vm_compute. Qed.

(** ** Claims about teardown *)

(** Teardown of a session that has no connection yet asks for one, closes it
    when the host grants it, and asks nothing else. *)
Lemma finalize_connects (host : Host) (st : State) (h u : string) :
  _ssh_client_cache (self st) = None →
  _hostname (self st) = Some h →
  _username (self st) = Some u →
  requests (world (finalize host st).2)
  = requests (world st)
      ++ Connect h u
         :: match connect_answer host (requests (world st)) h u with
            | None => [CloseClient]
            | Some _ => []
            end.
Proof.
  intros Hcache Hh Hu. unfold finalize, __del__, logger_debug. cbn [snd].
  rewrite run_bind.
  destruct (never_raises_log DEBUG "Closing SSH Client" st)
    as ([] & st0 & Hlog).
  pose proof (offline_log DEBUG "Closing SSH Client" st) as Hreq0.
  pose proof (log_keeps_self DEBUG "Closing SSH Client" st) as Hself0.
  rewrite Hlog in Hreq0, Hself0 |- *. cbn [snd] in Hreq0, Hself0.
  rewrite run_bind. unfold _ssh_client at 1. run.
  rewrite Hself0, Hcache. run. unfold logger_debug.
  destruct (never_raises_log DEBUG "Creating SSH Client" st0)
    as ([] & st1 & Hlog1).
  pose proof (offline_log DEBUG "Creating SSH Client" st0) as Hreq1.
  pose proof (log_keeps_self DEBUG "Creating SSH Client" st0) as Hself1.
  rewrite Hlog1 in Hreq1, Hself1 |- *. cbn [snd] in Hreq1, Hself1.
  unfold getattr_self. run. rewrite Hself1, Hself0, Hh. run.
  rewrite Hself1, Hself0, Hu. unfold connect. run.
  rewrite Hreq1, Hreq0.
  destruct (connect_answer host (requests (world st)) h u) as [e|].
  { done. }
  run. unfold _ssh_client. run.
  cbn [self world _ssh_client_cache set_ssh_client_cache]. run.
  unfold close. run.
  cbn [self world requests set_requests].
  destruct (close_answer host (requests (world st) ++ [Connect h u]));
    cbn; by rewrite <- app_assoc.
Qed.

(** Teardown of a session that has a connection closes it, once, and asks
    nothing else. *)
Lemma finalize_closes_once (host : Host) (st : State) (client : SSHClient) :
  _ssh_client_cache (self st) = Some client →
  requests (world (finalize host st).2) = requests (world st) ++ [CloseClient].
Proof.
  intros Hcache. unfold finalize, __del__, logger_debug. cbn [snd].
  rewrite run_bind.
  destruct (never_raises_log DEBUG "Closing SSH Client" st)
    as ([] & st0 & Hlog).
  pose proof (offline_log DEBUG "Closing SSH Client" st) as Hreq0.
  pose proof (log_keeps_self DEBUG "Closing SSH Client" st) as Hself0.
  rewrite Hlog in Hreq0, Hself0 |- *. cbn [snd] in Hreq0, Hself0.
  unfold _ssh_client. run. rewrite Hself0, Hcache. run.
  rewrite Hself0, Hcache. unfold close. run. rewrite Hreq0.
  by destruct (close_answer host (requests (world st))).
Qed.

(** The interpreter lets no exception out of a finalizer. *)
Lemma finalize_never_raises (host : Host) : never_raises (finalize host).
Proof. intros st. by eexists _, _. Qed.

(** C8, what the code does: the object the constructor leaves behind has no
    connection and has asked nothing of the remote side; its teardown asks
    for a connection and then closes it. *)
Theorem teardown_connects_when_never_connected :
  _ssh_client_cache (self left_by_constructor) = None
  ∧ requests (world left_by_constructor) = []
  ∧ requests (world (finalize obliging_host left_by_constructor).2)
    = [Connect "host" "user"; CloseClient].
Proof. by vm_compute. Qed.

(** ** Claims about the progress of a transfer *)

Lemma bar_updates_app (l1 l2 : list output) :
  bar_updates (l1 ++ l2) = bar_updates l1 ++ bar_updates l2.
Proof. apply omap_app. Qed.

Lemma total_advance_app (l1 l2 : list output) :
  total_advance (l1 ++ l2) = total_advance l1 + total_advance l2.
Proof.
  unfold total_advance. rewrite bar_updates_app.
  induction (bar_updates l1) as [|z zs IH]; cbn [app foldr]; [done|].
  rewrite IH. apply Z.add_assoc.
Qed.

(** One call of the callback on an instance whose [_progress_bar] is [None]
    or a bar: the bar is advanced by the difference between [current] and
    the remembered value, and [current] is remembered. *)
Lemma _scp_loading_bar_run (current total : Z) (st : State) (bar : pyval) :
  _progress_bar (self st) = Some bar →
  (∀ name, bar ≠ PObject name) →
  ∃ st' b shown,
    _scp_loading_bar current total st = (inr tt, st')
    ∧ _progress_bar (self st') = Some (PTqdm b)
    ∧ _progress_bar_last (self st') = Some current
    ∧ console (world st') = console (world st) ++ shown
    ∧ bar_updates shown = [current - remembered (self st)].
Proof.
  intros Hbar Hobj. unfold _scp_loading_bar, getattr_self. run.
  rewrite Hbar. run.
  assert (Hoffset :
    match _progress_bar_last (self st) with
    | Some last => if int_bool last then current - last else current
    | None => current
    end = current - remembered (self st)).
  { unfold remembered, int_bool.
    destruct (_progress_bar_last (self st)) as [last|]; cbn; [|lia].
    case_bool_decide; lia. }
  destruct bar as [|b0|name]; [| |by destruct (Hobj name)].
  - cbn [pyval_bool negb]. run.
    cbn [self world _progress_bar set_progress_bar _progress_bar_last
         console set_console]. run.
    cbn [self world _progress_bar set_progress_bar _progress_bar_last
         set_progress_bar_last console set_console].
    eexists _, _, [BarCreated total; BarUpdate _].
    split; [reflexivity|]. split; [reflexivity|]. split; [reflexivity|].
    rewrite <- app_assoc. split; [reflexivity|]. cbn. by rewrite Hoffset.
  - cbn [pyval_bool]. destruct (tqdm_bool b0); cbn [negb]; run.
    + rewrite Hbar. run.
      cbn [self world _progress_bar set_progress_bar _progress_bar_last
           set_progress_bar_last console set_console].
      eexists _, _, [BarUpdate _].
      split; [reflexivity|]. split; [reflexivity|]. split; [reflexivity|].
      split; [reflexivity|]. cbn. by rewrite Hoffset.
    + cbn [self world _progress_bar set_progress_bar _progress_bar_last
           console set_console]. run.
      cbn [self world _progress_bar set_progress_bar _progress_bar_last
           set_progress_bar_last console set_console].
      eexists _, _, [BarCreated total; BarUpdate _].
      split; [reflexivity|]. split; [reflexivity|]. split; [reflexivity|].
      rewrite <- app_assoc. split; [reflexivity|]. cbn. by rewrite Hoffset.
Qed.

(** The deltas of a run of callbacks telescope: their sum is the last
    cumulative value minus the value remembered when the run starts. *)
Lemma callbacks_advance (calls : list (Z * Z)) :
  ∀ (st : State) (bar : pyval),
    _progress_bar (self st) = Some bar →
    (∀ name, bar ≠ PObject name) →
    ∃ st' shown,
      callbacks calls st = (inr tt, st')
      ∧ console (world st') = console (world st) ++ shown
      ∧ total_advance shown
        = last_cumulative calls (remembered (self st)) - remembered (self st).
Proof.
  induction calls as [|[current total] rest IH]; intros st bar Hbar Hobj.
  - exists st, []. rewrite app_nil_r. split; [done|]. split; [done|].
    cbn. lia.
  - cbn [callbacks]. rewrite run_bind.
    destruct (_scp_loading_bar_run current total st bar Hbar Hobj)
      as (st1 & b & shown1 & -> & Hbar1 & Hlast1 & Hconsole1 & Hupd).
    destruct (IH st1 (PTqdm b) Hbar1) as (st' & shown2 & -> & Hconsole2 & Hadv);
      [done|].
    assert (Hrem1 : remembered (self st1) = current).
    { unfold remembered. by rewrite Hlast1. }
    rewrite Hrem1 in Hadv.
    exists st', (shown1 ++ shown2). split; [done|]. split.
    { by rewrite Hconsole2, Hconsole1, app_assoc. }
    rewrite total_advance_app, Hadv. unfold total_advance. rewrite Hupd.
    change (last_cumulative ((current, total) :: rest) (remembered (self st)))
      with (last_cumulative rest current).
    cbn [foldr]. lia.
Qed.

Lemma last_cumulative_last (calls : list (Z * Z)) (start cn tn : Z) :
  last calls = Some (cn, tn) → last_cumulative calls start = cn.
Proof.
  revert start. induction calls as [|[c t] rest IH]; intros start; [done|].
  destruct rest as [|call rest]; [by intros [= -> _]|].
  intros Hlast. apply (IH c Hlast).
Qed.

(** On an instance that remembers nothing, as in the first transfer of a
    session, the total advance of a run of callbacks is its last cumulative
    value. *)
Lemma first_transfer_telescopes (calls : list (Z * Z)) (st : State)
    (cn tn : Z) (bar : pyval) :
  _progress_bar (self st) = Some bar →
  (∀ name, bar ≠ PObject name) →
  _progress_bar_last (self st) = None →
  last calls = Some (cn, tn) →
  (callbacks calls st).1 = inr tt
  ∧ total_advance (shown_by (callbacks calls) st) = cn.
Proof.
  intros Hbar Hobj Hlast Hcn.
  destruct (callbacks_advance calls st bar Hbar Hobj)
    as (st' & shown & Hrun & Hconsole & Hadv).
  unfold shown_by. rewrite Hrun. cbn [fst snd]. split; [done|].
  rewrite Hconsole, drop_app_length, Hadv.
  rewrite (last_cumulative_last _ _ _ _ Hcn).
  unfold remembered. rewrite Hlast. cbn. lia.
Qed.

(** C5, what the code does: in a session that has downloaded [small]
    (10 bytes), the download of [large] calls the callback with the
    cumulative values 4 and 8; the bar is advanced by -6 and then by 4, in
    total by -2 and not by 8. *)
Theorem second_transfer_does_not_telescope :
  (_scp two_files_host "large" "large.copy" after_first_transfer).1 = inr tt
  ∧ get_answer two_files_host (requests (world after_first_transfer)) "large"
    = inr ([(4, 8); (8, 8)], "abcdefgh")
  ∧ bar_updates
      (shown_by (_scp two_files_host "large" "large.copy") after_first_transfer)
    = [-6; 4]
  ∧ total_advance
      (shown_by (_scp two_files_host "large" "large.copy") after_first_transfer)
    = -2.
Proof. by vm_compute. Qed.

(** C6, what the code does: when the download of [small] (10 bytes) is
    over, [_progress_bar] is [None] again but [_progress_bar_last] still
    holds 10; the first callback of the next transfer, with the cumulative
    value 4, advances the new bar by -6 and not by 4. *)
Theorem remembered_value_survives_transfer :
  _progress_bar (self after_first_transfer) = Some PNone
  ∧ _progress_bar_last (self after_first_transfer) = Some 10
  ∧ (_scp_loading_bar 4 8 after_first_transfer).1 = inr tt
  ∧ shown_by (_scp_loading_bar 4 8) after_first_transfer
    = [BarCreated 8; BarUpdate (-6)].
Proof. by vm_compute. Qed.

(** * Further properties *)

(** ** Relations every step respects *)

Lemma respects_bind (R : State → State → Prop) `{!Transitive R}
    {A B : Type} (m : M A) (f : A → M B) :
  respects R m → (∀ a, respects R (f a)) → respects R (m ≫= f).
Proof.
  intros Hm Hf st. rewrite run_bind. specialize (Hm st).
  destruct (m st) as [[e|a] st']; [exact Hm|].
  etrans; [exact Hm|apply Hf].
Qed.

Lemma respects_ret (R : State → State → Prop) `{!Reflexive R}
    {A : Type} (a : A) : respects R (mret a).
Proof. intros st. cbn. reflexivity. Qed.

Lemma respects_raise (R : State → State → Prop) `{!Reflexive R}
    {A : Type} (e : exn) : respects R (@raise A e).
Proof. intros st. cbn. reflexivity. Qed.

Lemma respects_get_self (R : State → State → Prop) `{!Reflexive R} :
  respects R get_self.
Proof. intros st. cbn. reflexivity. Qed.

Lemma respects_get_world (R : State → State → Prop) `{!Reflexive R} :
  respects R get_world.
Proof. intros st. cbn. reflexivity. Qed.

Lemma respects_getattr_self (R : State → State → Prop) `{!Reflexive R}
    {A : Type} (name : string) (field : Session → option A) :
  respects R (getattr_self name field).
Proof.
  intros st. unfold getattr_self. run.
  destruct (field (self st)); cbn; reflexivity.
Qed.

Lemma respects_try_finally (R : State → State → Prop) `{!Transitive R}
    {A : Type} (body : M A) (cleanup : M unit) :
  respects R body → respects R cleanup → respects R (try_finally body cleanup).
Proof.
  intros Hb Hc st. unfold try_finally. specialize (Hb st).
  destruct (body st) as [[e|a] st']; specialize (Hc st');
    destruct (cleanup st') as [[e'|[]] st'']; by etrans.
Qed.

Lemma respects_try_except (R : State → State → Prop) `{!Transitive R}
    {A : Type} (body : M A) (handler : exn → M A) :
  respects R body → (∀ e, respects R (handler e)) →
  respects R (try_except_SSHException body handler).
Proof.
  intros Hb Hh st. unfold try_except_SSHException. specialize (Hb st).
  destruct (body st) as [[e|a] st']; [|done].
  destruct (is_SSHException e); [|done]. etrans; [exact Hb|apply Hh].
Qed.

Lemma caches_kept_refl : Reflexive caches_kept.
Proof. intros s. by repeat split. Qed.
#[global] Existing Instance caches_kept_refl.

Lemma caches_kept_trans : Transitive caches_kept.
Proof.
  intros s1 s2 s3 (Hh & Hu & Hn & Hl & Hc) (Hh' & Hu' & Hn' & Hl' & Hc').
  repeat split; [congruence|congruence|auto..].
Qed.
#[global] Existing Instance caches_kept_trans.

Lemma keeping_caches_refl : Reflexive keeping_caches.
Proof. intros st. unfold keeping_caches. reflexivity. Qed.
#[global] Existing Instance keeping_caches_refl.

Lemma keeping_caches_trans : Transitive keeping_caches.
Proof. intros st1 st2 st3. unfold keeping_caches. apply transitivity. Qed.
#[global] Existing Instance keeping_caches_trans.

Lemma keeping_self_refl : Reflexive keeping_self.
Proof. by intros st. Qed.
#[global] Existing Instance keeping_self_refl.

Lemma keeping_self_trans : Transitive keeping_self.
Proof. unfold keeping_self. intros st1 st2 st3. congruence. Qed.
#[global] Existing Instance keeping_self_trans.

Lemma keeping_client_refl : Reflexive keeping_client.
Proof. by intros st. Qed.
#[global] Existing Instance keeping_client_refl.

Lemma keeping_client_trans : Transitive keeping_client.
Proof. unfold keeping_client. intros st1 st2 st3. congruence. Qed.
#[global] Existing Instance keeping_client_trans.

Lemma keeping_progress_refl : Reflexive keeping_progress.
Proof. by intros st. Qed.
#[global] Existing Instance keeping_progress_refl.

Lemma keeping_progress_trans : Transitive keeping_progress.
Proof.
  unfold keeping_progress. intros st1 st2 st3 [? ?] [? ?]. split; congruence.
Qed.
#[global] Existing Instance keeping_progress_trans.

Lemma asking_nothing_refl : Reflexive asking_nothing.
Proof. by intros st. Qed.
#[global] Existing Instance asking_nothing_refl.

Lemma asking_nothing_trans : Transitive asking_nothing.
Proof. unfold asking_nothing. intros st1 st2 st3. congruence. Qed.
#[global] Existing Instance asking_nothing_trans.

Lemma keeping_files_refl : Reflexive keeping_files.
Proof. by intros st. Qed.
#[global] Existing Instance keeping_files_refl.

Lemma keeping_files_trans : Transitive keeping_files.
Proof. unfold keeping_files. intros st1 st2 st3. congruence. Qed.
#[global] Existing Instance keeping_files_trans.

Lemma keeping_ticks_refl : Reflexive keeping_ticks.
Proof. by intros st. Qed.
#[global] Existing Instance keeping_ticks_refl.

Lemma keeping_ticks_trans : Transitive keeping_ticks.
Proof. unfold keeping_ticks. intros st1 st2 st3. congruence. Qed.
#[global] Existing Instance keeping_ticks_trans.

Lemma keeping_self_caches (st st' : State) :
  keeping_self st st' → keeping_caches st st'.
Proof. unfold keeping_self, keeping_caches. intros ->. reflexivity. Qed.

Lemma keeping_self_client (st st' : State) :
  keeping_self st st' → keeping_client st st'.
Proof. unfold keeping_self, keeping_client. by intros ->. Qed.

Lemma respects_weaken (R R' : State → State → Prop) {A : Type} (m : M A) :
  (∀ st st', R st st' → R' st st') → respects R m → respects R' m.
Proof. intros HR Hm st. apply HR, Hm. Qed.

Lemma file_close_respects (R : State → State → Prop) `{!Reflexive R} f :
  respects R (file_close f).
Proof. intros st. cbn. reflexivity. Qed.

(** Goals of the form [respects R m]: along the structure of [m], with the
    lemmas of the database [respects] at the named steps. *)
Create HintDb respects discriminated.

Ltac respect :=
  repeat first
    [ apply respects_ret; apply _
    | apply respects_raise; apply _
    | apply respects_get_self; apply _
    | apply respects_get_world; apply _
    | apply respects_getattr_self; apply _
    | apply file_close_respects; apply _
    | solve [auto with respects]
    | solve [eapply respects_weaken;
               [apply keeping_self_caches | auto with respects]]
    | solve [eapply respects_weaken;
               [apply keeping_self_client | auto with respects]]
    | apply respects_bind; [apply _ | | intros ?]
    | apply respects_try_finally; [apply _ | | ]
    | apply respects_try_except; [apply _ | | intros ?]
    | match goal with
      | |- respects _ (match ?x with _ => _ end) => destruct x
      | |- respects _ (let (_, _) := ?x in _) => destruct x
      end ].

(** Goals about one primitive step: run it on every branch. *)
Ltac respect_step :=
  intros st;
  unfold keeping_caches, keeping_self, keeping_client, keeping_progress,
    asking_nothing, keeping_files, keeping_ticks;
  run; repeat case_bool_decide; cbn; try done.

Lemma log_keeping_self lvl msg : respects keeping_self (log lvl msg).
Proof. unfold log. respect_step. Qed.

Lemma log_asking_nothing lvl msg : respects asking_nothing (log lvl msg).
Proof. unfold log. respect_step. Qed.

Lemma log_keeping_files lvl msg : respects keeping_files (log lvl msg).
Proof. unfold log. respect_step. Qed.

Lemma log_keeping_ticks lvl msg : respects keeping_ticks (log lvl msg).
Proof. unfold log. respect_step. Qed.

Lemma log_keeping_caches lvl msg : respects keeping_caches (log lvl msg).
Proof.
  eapply respects_weaken; [apply keeping_self_caches|apply log_keeping_self].
Qed.

Global Hint Resolve log_keeping_self log_asking_nothing log_keeping_files
  log_keeping_ticks log_keeping_caches : respects.

Global Hint Unfold logger_debug logger_info logger_exception : respects.

(** ** What the cached properties and the log file respect *)

Lemma _now_iso8601_keeping_caches : respects keeping_caches _now_iso8601.
Proof.
  intros st. unfold _now_iso8601, keeping_caches. run.
  destruct (_now_iso8601_cache (self st)) eqn:Hcache; [reflexivity|].
  run. cbn. repeat split; cbn; try done. intros v. by rewrite Hcache.
Qed.

Lemma _now_iso8601_asking_nothing : respects asking_nothing _now_iso8601.
Proof. exact offline__now_iso8601. Qed.

Lemma _now_iso8601_keeping_files : respects keeping_files _now_iso8601.
Proof. exact keeps_files__now_iso8601. Qed.

Global Hint Resolve _now_iso8601_keeping_caches _now_iso8601_asking_nothing
  _now_iso8601_keeping_files : respects.

Lemma _log_file_name_keeping_caches : respects keeping_caches _log_file_name.
Proof.
  intros st. unfold _log_file_name, _now_iso8601, keeping_caches. run.
  destruct (_log_file_name_cache (self st)) eqn:Hlog; [reflexivity|]. run.
  destruct (_now_iso8601_cache (self st)) eqn:Hnow; run; cbn;
    repeat split; cbn; try done; intros v; by rewrite ?Hlog, ?Hnow.
Qed.

Lemma _log_file_name_asking_nothing : respects asking_nothing _log_file_name.
Proof. exact offline__log_file_name. Qed.

Lemma _log_file_name_keeping_files : respects keeping_files _log_file_name.
Proof. exact keeps_files__log_file_name. Qed.

Global Hint Resolve _log_file_name_keeping_caches
  _log_file_name_asking_nothing _log_file_name_keeping_files : respects.

Lemma print_keeping_self text ending :
  respects keeping_self (print text ending).
Proof. respect_step. Qed.

Lemma print_asking_nothing text ending :
  respects asking_nothing (print text ending).
Proof. respect_step. Qed.

Lemma file_write_keeping_self f text :
  respects keeping_self (file_write f text).
Proof. respect_step. Qed.

Lemma file_write_asking_nothing f text :
  respects asking_nothing (file_write f text).
Proof. respect_step. Qed.

Lemma open_w_plus_keeping_self name : respects keeping_self (open_w_plus name).
Proof. respect_step. Qed.

Lemma open_w_plus_asking_nothing name :
  respects asking_nothing (open_w_plus name).
Proof. respect_step. Qed.

Global Hint Resolve print_keeping_self print_asking_nothing
  file_write_keeping_self file_write_asking_nothing open_w_plus_keeping_self
  open_w_plus_asking_nothing : respects.

Lemma write_lines_keeping_self command f stdout lines_count :
  respects keeping_self (write_lines command f stdout lines_count).
Proof.
  revert lines_count.
  induction stdout as [|line rest IH]; intros lines_count; cbn [write_lines];
    respect.
Qed.

Lemma write_lines_asking_nothing command f stdout lines_count :
  respects asking_nothing (write_lines command f stdout lines_count).
Proof.
  revert lines_count.
  induction stdout as [|line rest IH]; intros lines_count; cbn [write_lines];
    respect.
Qed.

Global Hint Resolve write_lines_keeping_self write_lines_asking_nothing
  : respects.

Lemma with_log_file_keeping_caches command stdout :
  respects keeping_caches
    (with_log_file (λ f, write_lines command f stdout 0%nat)).
Proof.
  unfold with_log_file. respect.
Qed.

Lemma with_log_file_asking_nothing command stdout :
  respects asking_nothing
    (with_log_file (λ f, write_lines command f stdout 0%nat)).
Proof.
  unfold with_log_file. respect.
Qed.

Global Hint Resolve with_log_file_keeping_caches with_log_file_asking_nothing
  : respects.

(** ** What the progress callback respects *)

(** Every branch of a computation built from primitive steps. *)
Ltac respect_branches :=
  intros st;
  unfold keeping_caches, keeping_self, keeping_client, keeping_progress,
    asking_nothing, keeping_files, keeping_ticks, getattr_self;
  repeat first
    [ progress run
    | match goal with
      | |- context [match ?x with _ => _ end] =>
          lazymatch x with
          | context [match _ with _ => _ end] => fail
          | _ => destruct x eqn:?
          end
      end ];
  cbn; try done; try (repeat split; cbn; done).

Lemma _scp_loading_bar_keeping_caches current total :
  respects keeping_caches (_scp_loading_bar current total).
Proof. unfold _scp_loading_bar. respect_branches. Qed.

Lemma _scp_loading_bar_asking_nothing current total :
  respects asking_nothing (_scp_loading_bar current total).
Proof. unfold _scp_loading_bar. respect_branches. Qed.

Lemma _scp_loading_bar_keeping_files current total :
  respects keeping_files (_scp_loading_bar current total).
Proof. unfold _scp_loading_bar. respect_branches. Qed.

Lemma _scp_loading_bar_keeping_ticks current total :
  respects keeping_ticks (_scp_loading_bar current total).
Proof. unfold _scp_loading_bar. respect_branches. Qed.

Global Hint Resolve _scp_loading_bar_keeping_caches
  _scp_loading_bar_asking_nothing _scp_loading_bar_keeping_files
  _scp_loading_bar_keeping_ticks : respects.

Lemma callbacks_respects (R : State → State → Prop)
    `{!Reflexive R, !Transitive R} (calls : list (Z * Z)) :
  (∀ current total, respects R (_scp_loading_bar current total)) →
  respects R (callbacks calls).
Proof.
  intros Hstep. induction calls as [|[current total] rest IH];
    cbn [callbacks]; [apply respects_ret, _|].
  apply respects_bind; [apply _|apply Hstep|intros _; exact IH].
Qed.

Lemma callbacks_keeping_caches calls : respects keeping_caches (callbacks calls).
Proof. apply callbacks_respects; [apply _..|auto with respects]. Qed.

Lemma callbacks_asking_nothing calls : respects asking_nothing (callbacks calls).
Proof. apply callbacks_respects; [apply _..|auto with respects]. Qed.

Lemma callbacks_keeping_files calls : respects keeping_files (callbacks calls).
Proof. apply callbacks_respects; [apply _..|auto with respects]. Qed.

Global Hint Resolve callbacks_keeping_caches callbacks_asking_nothing
  callbacks_keeping_files : respects.

(** ** What the connection and the commands ask *)

Lemma _ssh_client_keeping_caches (host : Host) :
  respects keeping_caches (_ssh_client host).
Proof.
  unfold _ssh_client, logger_debug, log, connect. respect_branches;
    repeat split; cbn; try done; intros v Hv; congruence.
Qed.

Lemma _ssh_client_keeping_files (host : Host) :
  respects keeping_files (_ssh_client host).
Proof. unfold _ssh_client, logger_debug, log, connect. respect_branches. Qed.

Global Hint Resolve _ssh_client_keeping_caches _ssh_client_keeping_files
  : respects.

(** Reading [_ssh_client]: a connection is asked for only when there is
    none, and what is returned is cached. *)
Lemma _ssh_client_effects (host : Host) (st : State) :
  ∃ pre,
    requests (world (_ssh_client host st).2) = requests (world st) ++ pre
    ∧ (pre = []
       ∨ (∃ h u, pre = [Connect h u]) ∧ _ssh_client_cache (self st) = None)
    ∧ ∀ client,
        (_ssh_client host st).1 = inr client →
        _ssh_client_cache (self (_ssh_client host st).2) = Some client.
Proof.
  unfold _ssh_client. run.
  destruct (_ssh_client_cache (self st)) as [client|] eqn:Hcache.
  { exists []. rewrite app_nil_r. cbn. split; [done|]. split; [auto|].
    by intros ? [= <-]. }
  run. unfold logger_debug.
  destruct (never_raises_log DEBUG "Creating SSH Client" st)
    as ([] & st0 & Hlog).
  pose proof (offline_log DEBUG "Creating SSH Client" st) as Hreq.
  rewrite Hlog in Hreq |- *. cbn [snd] in Hreq.
  unfold getattr_self. run.
  destruct (_hostname (self st0)) as [h|].
  2: { exists []. cbn. rewrite Hreq, app_nil_r. split; [done|]. split; [auto|]. done. }
  run. destruct (_username (self st0)) as [u|].
  2: { exists []. cbn. rewrite Hreq, app_nil_r. split; [done|]. split; [auto|]. done. }
  unfold connect. run. exists [Connect h u].
  destruct (connect_answer host (requests (world st0)) h u) as [e|]; cbn;
    rewrite Hreq.
  - split; [done|]. split; [eauto|]. done.
  - split; [done|]. split; [eauto|]. by intros ? [= <-].
Qed.

Lemma exec_command_keeping_self host client command :
  respects keeping_self (exec_command host client command).
Proof. unfold exec_command. respect_branches. Qed.

Lemma exec_command_keeping_files host client command :
  respects keeping_files (exec_command host client command).
Proof. unfold exec_command. respect_branches. Qed.

Global Hint Resolve exec_command_keeping_self exec_command_keeping_files
  : respects.

(** The [except] clause of [_ssh_exec]: the exception goes on, after a
    record at level [ERROR] when it is an [SSHException]. *)
Lemma reraise_effects {A : Type} (e : exn) (st : State) :
  ∃ st',
    (if is_SSHException e
     then (logger_exception (exn_str e);; raise e) st
     else ((inl e, st) : (exn + A) * State)) = (inl e, st')
    ∧ self st' = self st
    ∧ requests (world st') = requests (world st)
    ∧ files (world st') = files (world st)
    ∧ console (world st')
      = console (world st)
        ++ (if is_SSHException e
               && bool_decide (level_no (logger_level (world st))
                               ≤ level_no ERROR)
            then [Record_ ERROR (exn_str e)] else []).
Proof.
  destruct (is_SSHException e); cbn [andb].
  - unfold logger_exception, log. run. case_bool_decide; run; cbn.
    + by eexists.
    + eexists. by rewrite app_nil_r.
  - exists st. by rewrite app_nil_r.
Qed.

Lemma send_command_keeping_caches host command :
  respects keeping_caches (send_command host command).
Proof.
  unfold send_command, logger_info, logger_exception. respect.
Qed.

Lemma send_command_keeping_files host command :
  respects keeping_files (send_command host command).
Proof.
  unfold send_command, logger_info, logger_exception. respect.
Qed.

Global Hint Resolve send_command_keeping_caches send_command_keeping_files
  : respects.

Lemma send_command_asks (host : Host) (command : string) :
  asks (ExecCommand command) (send_command host command).
Proof.
  intros st. unfold send_command, logger_info. rewrite run_bind.
  set (msg := "Executing " +:+ command +:+ " command").
  destruct (never_raises_log INFO msg st) as ([] & st0 & Hlog).
  pose proof (offline_log INFO msg st) as Hreq0.
  pose proof (log_keeps_self INFO msg st) as Hself0.
  rewrite Hlog in Hreq0, Hself0 |- *. cbn [snd] in Hreq0, Hself0.
  unfold try_except_SSHException. rewrite run_bind.
  destruct (_ssh_client_effects host st0) as (pre & Hreq1 & Hpre & Hcached).
  rewrite Hself0, Hreq0 in *.
  destruct (_ssh_client host st0) as [[e|client] st1]; cbn [fst snd] in *.
  { destruct (@reraise_effects (list string * Z) e st1)
      as (st' & -> & _ & Hreq' & _).
    exists pre, []. cbn. rewrite app_nil_r, Hreq', Hreq1.
    split; [done|]. split; [done|]. split; [auto|]. done. }
  specialize (Hcached client eq_refl).
  unfold exec_command. run.
  destruct (exec_answer host (requests (world st1)) command) as [e|r].
  - cbn [raise].
    match goal with
    | |- context [if is_SSHException e then _ else (_, ?s)] =>
        destruct (@reraise_effects (list string * Z) e s)
          as (st' & -> & _ & Hreq' & _)
    end.
    exists pre, [ExecCommand command]. cbn [fst snd returned].
    rewrite Hreq'. cbn. rewrite Hreq1, <- app_assoc.
    split; [done|]. split; [done|]. split; [auto|]. done.
  - run. exists pre, [ExecCommand command]. cbn.
    rewrite Hreq1, <- app_assoc. split; [done|]. split; [done|].
    split; [auto|]. intros _. split; [done|]. by rewrite Hcached.
Qed.

Lemma _now_iso8601_keeping_client : respects keeping_client _now_iso8601.
Proof. unfold _now_iso8601. respect_branches. Qed.

Lemma _log_file_name_keeping_client : respects keeping_client _log_file_name.
Proof. unfold _log_file_name, _now_iso8601. respect_branches. Qed.

Lemma _scp_loading_bar_keeping_client current total :
  respects keeping_client (_scp_loading_bar current total).
Proof. unfold _scp_loading_bar. respect_branches. Qed.

Global Hint Resolve _now_iso8601_keeping_client _log_file_name_keeping_client
  _scp_loading_bar_keeping_client : respects.

Lemma callbacks_keeping_client calls : respects keeping_client (callbacks calls).
Proof. apply callbacks_respects; [apply _..|auto with respects]. Qed.

Global Hint Resolve callbacks_keeping_client : respects.

(** A step that asks, followed by steps that ask nothing. *)
Lemma asks_bind_quiet (step : request) {A B : Type} (m : M A) (f : A → M B) :
  asks step m →
  (∀ a, respects asking_nothing (f a)) →
  (∀ a, respects keeping_caches (f a)) →
  asks step (m ≫= f).
Proof.
  intros Hm Hquiet Hkeep st. rewrite run_bind.
  destruct (Hm st) as (pre & sent & Hreq & Hpre & Hsent & Hret).
  destruct (m st) as [[e|a] st1]; cbn [fst snd] in *.
  { by exists pre, sent. }
  destruct (Hret eq_refl) as [-> [client Hclient]].
  exists pre, [step]. rewrite (Hquiet a st1), Hreq.
  split; [done|]. split; [done|]. split; [auto|]. intros _. split; [done|].
  exists client. by apply (Hkeep a st1).
Qed.

(** Steps that ask nothing and leave the connection alone, followed by a
    step that asks. *)
Lemma asks_after_quiet (step : request) {A B : Type} (m : M A) (f : A → M B) :
  respects asking_nothing m →
  respects keeping_client m →
  (∀ a, asks step (f a)) →
  asks step (m ≫= f).
Proof.
  intros Hquiet Hclient Hf st. rewrite run_bind.
  specialize (Hquiet st). specialize (Hclient st).
  destruct (m st) as [[e|a] st1]; cbn [fst snd] in *.
  { exists [], []. rewrite Hquiet, app_nil_r. cbn.
    split; [done|]. split; [auto|]. split; [auto|]. done. }
  destruct (Hf a st1) as (pre & sent & Hreq & Hpre & Hsent & Hret).
  exists pre, sent. rewrite Hreq, Hquiet.
  split; [done|]. split; [|done]. rewrite <- Hclient. exact Hpre.
Qed.

Lemma _ssh_exec_keeping_caches host command k :
  respects keeping_caches (_ssh_exec host command k).
Proof.
  unfold _ssh_exec, logger_info, logger_exception. respect.
Qed.

Global Hint Resolve _ssh_exec_keeping_caches : respects.

Lemma _ssh_exec_asks (host : Host) (command : string) (k : Z) :
  asks (ExecCommand command) (_ssh_exec host command k).
Proof.
  unfold _ssh_exec, logger_info, logger_exception.
  apply asks_bind_quiet; [apply send_command_asks|..];
    intros [stdout exit_status]; respect.
Qed.

(** A download asks for the file, once, whatever comes of it. *)
Lemma sftp_get_effects (host : Host) (client : SSHClient) (src dest : string)
    (st : State) :
  requests (world (sftp_get host client src dest callbacks st).2)
  = requests (world st) ++ [SftpGet src dest]
  ∧ keeping_caches st (sftp_get host client src dest callbacks st).2
  ∧ keeping_client st (sftp_get host client src dest callbacks st).2.
Proof.
  unfold sftp_get. run.
  destruct (get_answer host (requests (world st)) src) as [e|[calls content]].
  { cbn. by repeat split. }
  rewrite run_bind.
  match goal with
  | |- context [callbacks calls ?s] =>
      pose proof (callbacks_asking_nothing calls s) as Hreq;
      pose proof (callbacks_keeping_caches calls s) as Hkeep;
      pose proof (callbacks_keeping_client calls s) as Hclient;
      destruct (callbacks calls s) as [[e|[]] st1]
  end; unfold asking_nothing, keeping_caches, keeping_client in *;
    cbn in Hreq, Hkeep, Hclient |- *;
    rewrite Hreq; (split; [done|split; assumption]).
Qed.

Lemma sftp_get_keeping_caches host client src dest :
  respects keeping_caches (sftp_get host client src dest callbacks).
Proof. intros st. apply sftp_get_effects. Qed.

Lemma set_progress_bar_keeping_caches v :
  respects keeping_caches (modify_self (set_progress_bar v)).
Proof. intros st. unfold keeping_caches. cbn. by repeat split. Qed.

Global Hint Resolve sftp_get_keeping_caches set_progress_bar_keeping_caches
  : respects.

Lemma _scp_keeping_caches host src dest :
  respects keeping_caches (_scp host src dest).
Proof. unfold _scp, logger_info. respect. Qed.

Global Hint Resolve _scp_keeping_caches : respects.

Lemma _scp_asks (host : Host) (src dest : string) :
  asks (SftpGet src dest) (_scp host src dest).
Proof.
  unfold _scp, logger_info.
  apply asks_after_quiet; [auto with respects| |intros _].
  { eapply respects_weaken; [apply keeping_self_client|auto with respects]. }
  intros st. rewrite run_bind.
  destruct (_ssh_client_effects host st) as (pre & Hreq & Hpre & Hcached).
  destruct (_ssh_client host st) as [[e|client] st1]; cbn [fst snd] in *.
  { exists pre, []. rewrite app_nil_r.
    split; [done|]. split; [done|]. split; [auto|]. done. }
  specialize (Hcached client eq_refl). rewrite run_bind.
  destruct (sftp_get_effects host client src dest st1)
    as (Hreq2 & _ & Hclient).
  destruct (sftp_get host client src dest callbacks st1) as [[e|[]] st2];
    cbn [fst snd] in *; exists pre, [SftpGet src dest];
    cbn; rewrite Hreq2, Hreq, <- app_assoc;
    (split; [done|]); (split; [done|]); (split; [auto|]); [done|].
  intros _. split; [done|]. exists client.
  unfold keeping_client in Hclient. by rewrite Hclient.
Qed.

(** ** The order of the requests of [backup] *)

Lemma _now_iso8601_returns (st : State) :
  ∃ now st',
    _now_iso8601 st = (inr now, st')
    ∧ _now_iso8601_cache (self st') = Some now.
Proof.
  unfold _now_iso8601. run.
  destruct (_now_iso8601_cache (self st)) eqn:Hcache; run; by eexists _, _.
Qed.

Lemma _now_iso8601_cached (st : State) (now : string) :
  _now_iso8601_cache (self st) = Some now →
  _now_iso8601 st = (inr now, st).
Proof. intros Hcache. unfold _now_iso8601. run. by rewrite Hcache. Qed.

(** ** What a download leaves behind *)

Lemma log_keeping_progress lvl msg : respects keeping_progress (log lvl msg).
Proof. unfold log. respect_step. Qed.

Lemma _ssh_client_keeping_progress (host : Host) :
  respects keeping_progress (_ssh_client host).
Proof. unfold _ssh_client, logger_debug, log, connect. respect_branches. Qed.

(** A callback that returns has remembered its cumulative value and has
    left the files alone. *)
Lemma _scp_loading_bar_remembers (current total : Z) (st st' : State) :
  _scp_loading_bar current total st = (inr tt, st') →
  _progress_bar_last (self st') = Some current.
Proof.
  unfold _scp_loading_bar. intros H.
  do 5 (rewrite run_bind in H;
        match type of H with
        | context [match ?x with _ => _ end] =>
            destruct x as [[?|?] ?]; [discriminate H|]
        end).
  cbn in H. by injection H as <-.
Qed.

Lemma callbacks_remember (calls : list (Z * Z)) :
  ∀ st st',
    callbacks calls st = (inr tt, st') →
    _progress_bar_last (self st')
    = remembered_after calls (_progress_bar_last (self st)).
Proof.
  induction calls as [|[current total] rest IH]; intros st st';
    cbn [callbacks].
  - by intros [= <-].
  - rewrite run_bind.
    destruct (_scp_loading_bar current total st) as [[e|[]] st1] eqn:Hstep;
      [done|].
    intros Hrest. rewrite (IH _ _ Hrest).
    by rewrite (_scp_loading_bar_remembers _ _ _ _ Hstep).
Qed.

(** A download that returns asked the host for the file once, after a
    connection when the session had none, and for nothing else; the working
    directory differs in the file named [dest] alone, which holds the bytes
    the host sent; [_progress_bar] is [None], and [_progress_bar_last] holds
    the cumulative value of the last callback of this download (what it held
    before when the download had no callback): it is not reset. *)
Theorem scp_leaves_last_value (host : Host) (src dest : string)
    (st st' : State) :
  _scp host src dest st = (inr tt, st') →
  ∃ pre calls content,
    (pre = []
     ∨ (∃ h u, pre = [Connect h u]) ∧ _ssh_client_cache (self st) = None)
    ∧ requests (world st') = requests (world st) ++ pre ++ [SftpGet src dest]
    ∧ get_answer host (requests (world st) ++ pre) src = inr (calls, content)
    ∧ files (world st') = <[dest := content]> (files (world st))
    ∧ _progress_bar (self st') = Some PNone
    ∧ _progress_bar_last (self st')
      = remembered_after calls (_progress_bar_last (self st)).
Proof.
  unfold _scp, logger_info. rewrite run_bind.
  set (msg := "Copying " +:+ chr DQUOTE +:+ src +:+ chr DQUOTE +:+ " file").
  destruct (never_raises_log INFO msg st) as ([] & st0 & Hlog).
  pose proof (log_asking_nothing INFO msg st) as Hreq0.
  pose proof (log_keeping_progress INFO msg st) as Hprog0.
  pose proof (keeps_files_log INFO msg st) as Hfiles0.
  pose proof (log_keeps_self INFO msg st) as Hself0.
  unfold asking_nothing, keeping_progress in Hreq0, Hprog0.
  rewrite Hlog in Hreq0, Hprog0, Hfiles0, Hself0 |- *.
  cbn [snd] in Hreq0, Hprog0, Hfiles0, Hself0.
  rewrite run_bind.
  destruct (_ssh_client_effects host st0) as (pre & Hreq1 & Hpre & _).
  pose proof (_ssh_client_keeping_progress host st0) as Hprog1.
  pose proof (_ssh_client_keeping_files host st0) as Hfiles1.
  unfold keeping_progress in Hprog1. unfold keeping_files in Hfiles1.
  destruct (_ssh_client host st0) as [[e|client] st1]; [done|].
  cbn [fst snd] in *. rewrite run_bind. unfold sftp_get. run.
  destruct (get_answer host (requests (world st1)) src)
    as [e|[calls content]] eqn:Hanswer; [done|].
  rewrite run_bind.
  match goal with
  | |- context [callbacks calls ?s] =>
      pose proof (callbacks_asking_nothing calls s) as Hreq2;
      pose proof (callbacks_keeping_files calls s) as Hfiles2;
      pose proof (callbacks_remember calls s) as Hlast2;
      destruct (callbacks calls s) as [[e|[]] st2]; [done|]
  end.
  specialize (Hlast2 st2 eq_refl).
  unfold asking_nothing, keeping_files in Hreq2, Hfiles2.
  cbn in Hreq2, Hfiles2, Hlast2. run.
  intros [= <-]. exists pre, calls, content. cbn.
  rewrite Hreq2, Hfiles2, Hfiles1, Hfiles0, Hlast2, Hreq1, Hreq0,
    <- app_assoc.
  destruct Hprog0 as [_ Hl0]. destruct Hprog1 as [_ Hl1].
  rewrite Hreq1, Hreq0 in Hanswer. rewrite Hl1, Hl0. rewrite Hself0 in Hpre.
  done.
Qed.

(** On a host with a 10-byte file, from a session whose [_progress_bar] is
    [None]. *)
Lemma scp_leaves_last_value_witness :
  ∃ pre calls content,
    (pre = []
     ∨ (∃ h u, pre = [Connect h u])
       ∧ _ssh_client_cache (self with_progress_bar_None) = None)
    ∧ requests (world after_first_transfer)
      = requests (world with_progress_bar_None)
          ++ pre ++ [SftpGet "small" "small.copy"]
    ∧ get_answer two_files_host
        (requests (world with_progress_bar_None) ++ pre) "small"
      = inr (calls, content)
    ∧ files (world after_first_transfer)
      = <["small.copy" := content]> (files (world with_progress_bar_None))
    ∧ _progress_bar (self after_first_transfer) = Some PNone
    ∧ _progress_bar_last (self after_first_transfer)
      = remembered_after calls
          (_progress_bar_last (self with_progress_bar_None)).
Proof.
  apply (scp_leaves_last_value two_files_host "small" "small.copy"
           with_progress_bar_None after_first_transfer).
  by vm_compute.
Defined.

(** ** The connection is made once *)

(** A connection that was obtained is the one every later read of
    [_ssh_client] returns, with no request and no change of state. *)
Theorem ssh_client_is_cached (host : Host) (st st1 : State)
    (client : SSHClient) :
  _ssh_client host st = (inr client, st1) →
  _ssh_client host st1 = (inr client, st1).
Proof.
  intros Hrun. destruct (_ssh_client_effects host st) as (_ & _ & _ & Hcached).
  rewrite Hrun in Hcached. specialize (Hcached client eq_refl).
  cbn [snd] in Hcached. unfold _ssh_client. run. by rewrite Hcached.
Qed.

Lemma ssh_client_is_cached_witness :
  _ssh_client obliging_host (_ssh_client obliging_host left_by_constructor).2
  = (inr {| peer_hostname := "host"; peer_username := "user" |},
     (_ssh_client obliging_host left_by_constructor).2).
Proof.
  apply (ssh_client_is_cached obliging_host left_by_constructor).
  by vm_compute.
Defined.

(** A connection attempt that raises caches nothing: the exception is the
    host's, one [Connect] request was made, and the next read of
    [_ssh_client] asks for a connection again. *)
Theorem failed_connection_is_not_cached (host : Host) (st : State)
    (h u : string) (e : exn) :
  _ssh_client_cache (self st) = None →
  _hostname (self st) = Some h →
  _username (self st) = Some u →
  connect_answer host (requests (world st)) h u = Some e →
  (_ssh_client host st).1 = inl e
  ∧ _ssh_client_cache (self (_ssh_client host st).2) = None
  ∧ requests (world (_ssh_client host st).2)
    = requests (world st) ++ [Connect h u]
  ∧ requests (world (_ssh_client host (_ssh_client host st).2).2)
    = requests (world st) ++ [Connect h u; Connect h u].
Proof.
  intros Hcache Hh Hu Hanswer.
  assert (Hfirst : ∀ s,
    _ssh_client_cache (self s) = None →
    _hostname (self s) = Some h → _username (self s) = Some u →
    ∃ s',
      _ssh_client host s
      = (match connect_answer host (requests (world s)) h u with
         | Some e => inl e
         | None => inr {| peer_hostname := h; peer_username := u |}
         end, s')
      ∧ requests (world s') = requests (world s) ++ [Connect h u]
      ∧ (is_Some (connect_answer host (requests (world s)) h u) →
         self s' = self s)).
  { intros s Hc Hhs Hus. unfold _ssh_client, logger_debug. run.
    rewrite Hc. run.
    destruct (never_raises_log DEBUG "Creating SSH Client" s)
      as ([] & s0 & Hlog).
    pose proof (offline_log DEBUG "Creating SSH Client" s) as Hreq.
    pose proof (log_keeps_self DEBUG "Creating SSH Client" s) as Hself.
    rewrite Hlog in Hreq, Hself |- *. cbn [snd] in Hreq, Hself.
    unfold getattr_self, connect. run. rewrite Hself, Hhs. run.
    rewrite Hself, Hus. run. rewrite Hreq.
    destruct (connect_answer host (requests (world s)) h u); run;
      eexists; (split; [reflexivity|]); cbn;
      (split; [done|]); [done|by intros [? ?]]. }
  destruct (Hfirst st Hcache Hh Hu) as (st1 & Hrun & Hreq & Hself).
  rewrite Hanswer in Hrun, Hself. specialize (Hself (ltac:(eauto))).
  rewrite Hrun. cbn [fst snd]. rewrite Hself, Hcache, Hreq.
  split; [done|]. split; [done|]. split; [done|].
  destruct (Hfirst st1) as (st2 & -> & Hreq2 & _); [by rewrite Hself..|].
  cbn [snd]. by rewrite Hreq2, Hreq, <- app_assoc.
Qed.

Lemma failed_connection_is_not_cached_witness :
  (_ssh_client unreachable_host left_by_constructor).1
  = inl (OSError "No route to host")
  ∧ _ssh_client_cache
      (self (_ssh_client unreachable_host left_by_constructor).2) = None
  ∧ requests (world (_ssh_client unreachable_host left_by_constructor).2)
    = requests (world left_by_constructor) ++ [Connect "host" "user"]
  ∧ requests
      (world (_ssh_client unreachable_host
                (_ssh_client unreachable_host left_by_constructor).2).2)
    = requests (world left_by_constructor)
        ++ [Connect "host" "user"; Connect "host" "user"].
Proof.
  apply (failed_connection_is_not_cached unreachable_host
           left_by_constructor "host" "user"); by vm_compute.
Defined.

(** ** A command that cannot be sent *)

Lemma log_console (lvl : level) (msg : string) (st : State) :
  console (world (log lvl msg st).2)
  = console (world st)
    ++ (if bool_decide (level_no (logger_level (world st)) ≤ level_no lvl)
        then [Record_ lvl msg] else []).
Proof.
  unfold log. run. case_bool_decide; cbn; [done|by rewrite app_nil_r].
Qed.

Lemma log_keeps_level (lvl : level) (msg : string) (st : State) :
  logger_level (world (log lvl msg st).2) = logger_level (world st).
Proof. unfold log. run. by case_bool_decide. Qed.

(** When the session has a connection and the host refuses the command,
    [_ssh_exec] raises the exception of [exec_command] as it is, after the
    one request; the log file is neither created nor truncated; and the
    exception is recorded at level [ERROR] exactly when it is an
    [SSHException]. *)
Theorem ssh_exec_refused (host : Host) (c : string) (k : Z) (st : State)
    (client : SSHClient) (e : exn) :
  _ssh_client_cache (self st) = Some client →
  exec_answer host (requests (world st)) c = inl e →
  (_ssh_exec host c k st).1 = inl e
  ∧ files (world (_ssh_exec host c k st).2) = files (world st)
  ∧ requests (world (_ssh_exec host c k st).2)
    = requests (world st) ++ [ExecCommand c]
  ∧ (Record_ ERROR (exn_str e) ∈ shown_by (_ssh_exec host c k) st
     ↔ is_SSHException e = true).
Proof.
  intros Hclient Hanswer. unfold shown_by, _ssh_exec. rewrite run_bind.
  unfold send_command, logger_info. rewrite run_bind.
  set (msg := "Executing " +:+ c +:+ " command").
  destruct (never_raises_log INFO msg st) as ([] & st0 & Hlog).
  pose proof (offline_log INFO msg st) as Hreq0.
  pose proof (log_keeps_self INFO msg st) as Hself0.
  pose proof (keeps_files_log INFO msg st) as Hfiles0.
  pose proof (log_console INFO msg st) as Hconsole0.
  pose proof (log_keeps_level INFO msg st) as Hlevel0.
  rewrite Hlog in Hreq0, Hself0, Hfiles0, Hconsole0, Hlevel0 |- *.
  cbn [snd] in Hreq0, Hself0, Hfiles0, Hconsole0, Hlevel0.
  unfold try_except_SSHException, _ssh_client, exec_command. run.
  rewrite Hself0, Hclient. run. rewrite Hreq0, Hanswer. cbn [raise].
  match goal with
  | |- context [if is_SSHException e then _ else (_, ?s)] =>
      destruct (@reraise_effects (list string * Z) e s)
        as (st' & -> & _ & Hreq' & Hfiles' & Hconsole')
  end.
  cbn [fst snd] in *.
  cbn [world requests set_requests console logger_level files self]
    in Hreq', Hfiles', Hconsole'.
  rewrite Hreq', Hfiles', Hfiles0, Hconsole', Hconsole0, Hlevel0.
  rewrite <- app_assoc, drop_app_length.
  split; [done|]. split; [done|]. split; [done|].
  rewrite elem_of_app.
  destruct (is_SSHException e); cbn [andb].
  - rewrite (bool_decide_eq_true_2
               (level_no (logger_level (world st)) ≤ level_no ERROR))
      by (destruct (logger_level (world st)); cbn; lia).
    split; [done|]. intros _. right. by apply list_elem_of_singleton.
  - split; [|done]. intros [Hin|Hin]; [|by apply elem_of_nil in Hin].
    case_bool_decide; [|by apply elem_of_nil in Hin].
    by apply list_elem_of_singleton in Hin.
Qed.

(** On a host that refuses every command, from a session that has run one
    command before. *)
Lemma ssh_exec_refused_witness :
  (_ssh_exec refusing_host "uptime" 0 after_first_command).1
  = inl (SSHException "Channel closed.")
  ∧ files (world (_ssh_exec refusing_host "uptime" 0 after_first_command).2)
    = files (world after_first_command)
  ∧ requests
      (world (_ssh_exec refusing_host "uptime" 0 after_first_command).2)
    = requests (world after_first_command) ++ [ExecCommand "uptime"]
  ∧ (Record_ ERROR (exn_str (SSHException "Channel closed."))
       ∈ shown_by (_ssh_exec refusing_host "uptime" 0) after_first_command
     ↔ is_SSHException (SSHException "Channel closed.") = true).
Proof.
  eapply (ssh_exec_refused refusing_host "uptime" 0 after_first_command);
    by vm_compute.
Defined.

(** ** The command line *)



(** What [parse_args] does with a command line: it leaves the state alone;
    it accepts only with a host, which is a string, and with exactly one of
    the flags [deploy] and [backup] set; and otherwise it exits, with status
    0 (after the help) or 2 (after an error). *)
Theorem parse_args_outcome (argv : list string) (st : State) :
  (parse_args argv st).2 = st
  ∧ match (parse_args argv st).1 with
    | inr args =>
        ∃ d b v h, parsed args d b v (Some h) ∧ xorb d b = true
    | inl e => e = SystemExit 0 ∨ e = SystemExit 2
    end.
Proof.
  unfold parse_args.
  pose proof (argparse_parse_args_parsed argv) as Hparsed.
  by destruct (argparse.parse_args argv) as [e|ns].
Qed.




(** ** Teardown, on sessions with and without a connection *)

(** On a host that grants the connection and on one that cannot be
    reached. *)
Lemma finalize_connects_witness :
  requests (world (finalize obliging_host left_by_constructor).2)
  = requests (world left_by_constructor)
      ++ Connect "host" "user"
         :: match connect_answer obliging_host
                    (requests (world left_by_constructor)) "host" "user" with
            | None => [CloseClient]
            | Some _ => []
            end
  ∧ requests (world (finalize unreachable_host left_by_constructor).2)
    = requests (world left_by_constructor)
        ++ Connect "host" "user"
           :: match connect_answer unreachable_host
                      (requests (world left_by_constructor)) "host" "user" with
              | None => [CloseClient]
              | Some _ => []
              end.
Proof.
  split.
  - apply (finalize_connects obliging_host left_by_constructor);
      by vm_compute.
  - apply (finalize_connects unreachable_host left_by_constructor);
      by vm_compute.
Defined.

Lemma finalize_closes_once_witness :
  requests (world (finalize echo_host after_first_command).2)
  = requests (world after_first_command) ++ [CloseClient].
Proof.
  eapply (finalize_closes_once echo_host after_first_command).
  by vm_compute.
Defined.

(** ** The progress of one transfer *)

(** On the first download of a session, in three chunks. *)
Lemma first_transfer_telescopes_witness :
  (callbacks [(32768, 70000); (65536, 70000); (70000, 70000)]
     with_progress_bar_None).1 = inr tt
  ∧ total_advance
      (shown_by (callbacks [(32768, 70000); (65536, 70000); (70000, 70000)])
         with_progress_bar_None)
    = 70000.
Proof.
  eapply (first_transfer_telescopes _ with_progress_bar_None 70000 70000);
    by vm_compute.
Defined.

(** Whatever the instance remembers when a run of callbacks starts, the
    callbacks return and advance the bar in total by the last cumulative
    value minus the remembered value (by nothing when there is no
    callback). *)
Theorem progress_telescopes_from_remembered (calls : list (Z * Z))
    (st : State) (bar : pyval) :
  _progress_bar (self st) = Some bar →
  (∀ name, bar ≠ PObject name) →
  (callbacks calls st).1 = inr tt
  ∧ total_advance (shown_by (callbacks calls) st)
    = last_cumulative calls (remembered (self st)) - remembered (self st)
  ∧ _progress_bar_last (self (callbacks calls st).2)
    = remembered_after calls (_progress_bar_last (self st)).
Proof.
  intros Hbar Hobj.
  destruct (callbacks_advance calls st bar Hbar Hobj)
    as (st' & shown & Hrun & Hconsole & Hadv).
  pose proof (callbacks_remember calls st st' Hrun) as Hlast.
  unfold shown_by. rewrite Hrun. cbn [fst snd].
  by rewrite Hconsole, drop_app_length.
Qed.

(** On the second download of a session: 10 is remembered, the callbacks
    report 4 and 8. *)
Lemma progress_telescopes_from_remembered_witness :
  (callbacks [(4, 8); (8, 8)] after_first_transfer).1 = inr tt
  ∧ total_advance (shown_by (callbacks [(4, 8); (8, 8)]) after_first_transfer)
    = last_cumulative [(4, 8); (8, 8)] (remembered (self after_first_transfer))
      - remembered (self after_first_transfer)
  ∧ _progress_bar_last (self (callbacks [(4, 8); (8, 8)] after_first_transfer).2)
    = remembered_after [(4, 8); (8, 8)]
        (_progress_bar_last (self after_first_transfer)).
Proof.
  eapply (progress_telescopes_from_remembered _ after_first_transfer);
    by vm_compute.
Defined.

(** ** The attributes no method changes *)

Lemma backup_keeping_caches (host : Host) :
  respects keeping_caches (backup host).
Proof. unfold backup, logger_info. respect. Qed.

Lemma close_keeping_self host client :
  respects keeping_self (close host client).
Proof. unfold close. respect_branches. Qed.

Global Hint Resolve close_keeping_self : respects.

(** Running a command, downloading a file, a whole backup and the teardown
    leave the host name and the user name as they are, and never replace a
    timestamp, a log file name or a connection that the instance has
    cached. *)
Theorem methods_keep_caches (host : Host) (st : State) :
  (∀ command k, caches_kept (self st) (self (_ssh_exec host command k st).2))
  ∧ (∀ src dest, caches_kept (self st) (self (_scp host src dest st).2))
  ∧ caches_kept (self st) (self (backup host st).2)
  ∧ caches_kept (self st) (self (finalize host st).2).
Proof.
  split; [intros; apply _ssh_exec_keeping_caches|].
  split; [intros; apply _scp_keeping_caches|].
  split; [apply backup_keeping_caches|].
  unfold finalize. cbn [snd].
  assert (H : respects keeping_caches (__del__ host)); [|apply H].
  unfold __del__, logger_debug. respect.
Qed.

(** ** The clock is read once *)

Lemma reading_clock_once_refl : Reflexive reading_clock_once.
Proof. intros st. split; [reflexivity|by left]. Qed.
#[global] Existing Instance reading_clock_once_refl.

Lemma reading_clock_once_trans : Transitive reading_clock_once.
Proof.
  intros st1 st2 st3 [Hk12 H12] [Hk23 H23].
  split; [by etrans|].
  destruct H12 as [H12|(Hnone & Hsome & H12)],
           H23 as [H23|(Hnone' & Hsome' & H23)].
  - left. congruence.
  - right. split; [|split; [done|congruence]].
    destruct Hk12 as (_ & _ & Hn & _).
    destruct (_now_iso8601_cache (self st1)) as [v|] eqn:Hv; [|done].
    by rewrite (Hn v eq_refl) in Hnone'.
  - right. split; [done|]. split; [|congruence].
    destruct Hsome as [v Hv]. destruct Hk23 as (_ & _ & Hn & _).
    exists v. by apply Hn.
  - destruct Hsome as [v Hv]. congruence.
Qed.
#[global] Existing Instance reading_clock_once_trans.

Lemma reading_clock_once_quiet {A : Type} (m : M A) :
  respects keeping_caches m → respects keeping_ticks m →
  respects reading_clock_once m.
Proof. intros Hk Ht st. split; [apply Hk|left; apply Ht]. Qed.

Lemma print_keeping_ticks text ending :
  respects keeping_ticks (print text ending).
Proof. respect_step. Qed.

Lemma file_write_keeping_ticks f text :
  respects keeping_ticks (file_write f text).
Proof. respect_step. Qed.

Lemma open_w_plus_keeping_ticks name :
  respects keeping_ticks (open_w_plus name).
Proof. respect_step. Qed.

Global Hint Resolve print_keeping_ticks file_write_keeping_ticks
  open_w_plus_keeping_ticks : respects.

Lemma write_lines_keeping_ticks command f stdout lines_count :
  respects keeping_ticks (write_lines command f stdout lines_count).
Proof.
  revert lines_count.
  induction stdout as [|line rest IH]; intros lines_count; cbn [write_lines];
    respect.
Qed.

Lemma exec_command_keeping_ticks host client command :
  respects keeping_ticks (exec_command host client command).
Proof. unfold exec_command. respect_branches. Qed.

Lemma close_keeping_ticks host client :
  respects keeping_ticks (close host client).
Proof. unfold close. respect_branches. Qed.

Lemma _ssh_client_keeping_ticks (host : Host) :
  respects keeping_ticks (_ssh_client host).
Proof. unfold _ssh_client, logger_debug, log, connect. respect_branches. Qed.

Lemma callbacks_keeping_ticks calls : respects keeping_ticks (callbacks calls).
Proof. apply callbacks_respects; [apply _..|auto with respects]. Qed.

Lemma sftp_get_keeping_ticks host client src dest :
  respects keeping_ticks (sftp_get host client src dest callbacks).
Proof.
  intros st. unfold sftp_get, keeping_ticks. run.
  destruct (get_answer host (requests (world st)) src) as [e|[calls content]];
    [done|].
  rewrite run_bind.
  match goal with
  | |- context [callbacks calls ?s] =>
      pose proof (callbacks_keeping_ticks calls s) as Hticks;
      destruct (callbacks calls s) as [[e|[]] st1]
  end; unfold keeping_ticks in Hticks; cbn in Hticks |- *; exact Hticks.
Qed.

Lemma set_progress_bar_keeping_ticks v :
  respects keeping_ticks (modify_self (set_progress_bar v)).
Proof. respect_step. Qed.

Global Hint Resolve write_lines_keeping_ticks exec_command_keeping_ticks
  close_keeping_ticks _ssh_client_keeping_ticks callbacks_keeping_ticks
  sftp_get_keeping_ticks set_progress_bar_keeping_ticks : respects.

Lemma _now_iso8601_reading_clock_once : respects reading_clock_once _now_iso8601.
Proof.
  intros st. split; [apply _now_iso8601_keeping_caches|].
  unfold _now_iso8601. run.
  destruct (_now_iso8601_cache (self st)) eqn:Hcache; run; cbn;
    [by left|right; eauto].
Qed.

Lemma _log_file_name_reading_clock_once :
  respects reading_clock_once _log_file_name.
Proof.
  intros st. split; [apply _log_file_name_keeping_caches|].
  unfold _log_file_name, _now_iso8601. run.
  destruct (_log_file_name_cache (self st)); [by left|]. run.
  destruct (_now_iso8601_cache (self st)) eqn:Hcache; run; cbn;
    [by left|right; eauto].
Qed.

Global Hint Resolve _now_iso8601_reading_clock_once
  _log_file_name_reading_clock_once : respects.

(** Goals [respects reading_clock_once m]: the steps that read no clock are
    found by their two weaker properties. *)
Ltac respect_clock :=
  repeat first
    [ solve [auto with respects]
    | solve [apply reading_clock_once_quiet; [ respect | respect ]]
    | apply respects_bind; [apply _ | | intros ?]
    | apply respects_try_finally; [apply _ | | ]
    | apply respects_try_except; [apply _ | | intros ?]
    | match goal with
      | |- respects _ (match ?x with _ => _ end) => destruct x
      | |- respects _ (let (_, _) := ?x in _) => destruct x
      end ].

(** During a backup the clock is read at most once, and not at all when
    the session has its timestamp already: the log file name and the four
    requests are built from one reading. *)
Theorem backup_reads_clock_once (host : Host) (st : State) :
  (ticks (world (backup host st).2) = ticks (world st)
   ∨ ticks (world (backup host st).2) = S (ticks (world st)))
  ∧ (is_Some (_now_iso8601_cache (self st)) →
     ticks (world (backup host st).2) = ticks (world st)).
Proof.
  assert (H : respects reading_clock_once (backup host)).
  { unfold backup, _ssh_exec, send_command, _scp, with_log_file, logger_info,
      logger_exception.
    respect_clock. }
  destruct (H st) as [_ [Hticks|(Hnone & _ & Hticks)]].
  - split; [by left|done].
  - split; [by right|]. rewrite Hnone. by intros [? ?].
Qed.

(** ** The name of the log file *)

(** The first command a session runs names the log file after the
    session's timestamp: [hass_remote_mgmt.<timestamp>.log], the timestamp
    being the one the instance keeps (and [backup] builds its requests
    from); the file holds the output of that command. *)
Theorem log_file_named_after_timestamp (host : Host) (c : string) (k : Z)
    (st st1 : State) (stdout : list string) (exit_status : Z) :
  send_command host c st = (inr (stdout, exit_status), st1) →
  _log_file_name_cache (self st) = None →
  ∃ now,
    _now_iso8601_cache (self (_ssh_exec host c k st).2) = Some now
    ∧ _log_file_name_cache (self (_ssh_exec host c k st).2)
      = Some ("hass_remote_mgmt." +:+ now +:+ ".log")
    ∧ files (world (_ssh_exec host c k st).2)
        !! ("hass_remote_mgmt." +:+ now +:+ ".log")
      = Some (log_text stdout).
Proof.
  intros Hsend Hnone.
  pose proof (send_command_keeps_log_file_name host c st) as Hkeep.
  rewrite Hsend, Hnone in Hkeep. cbn [snd] in Hkeep.
  destruct (_now_iso8601_returns st1) as (now & st1' & Hnow & Hcached).
  assert (Hname : ∃ st2,
    _log_file_name st1
    = (inr ("hass_remote_mgmt." +:+ now +:+ ".log"), st2)
    ∧ _now_iso8601_cache (self st2) = Some now).
  { unfold _log_file_name. run. rewrite Hkeep.
    rewrite (run_bind_ok _ _ _ _ _ Hnow). run. by eexists. }
  destruct Hname as (st2 & Hname & Hnow2).
  destruct (_ssh_exec_run host c k _ _ _ _ _ _ Hsend Hname)
    as (st' & -> & _ & Hfile & Hself).
  destruct (_log_file_name_cached _ _ _ Hname) as [Hlog _].
  exists now. cbn [snd]. by rewrite Hself.
Qed.

(** On the first command of a session. *)
Lemma log_file_named_after_timestamp_witness :
  ∃ now,
    _now_iso8601_cache
      (self (_ssh_exec echo_host "first" 0 left_by_constructor).2) = Some now
    ∧ _log_file_name_cache
        (self (_ssh_exec echo_host "first" 0 left_by_constructor).2)
      = Some ("hass_remote_mgmt." +:+ now +:+ ".log")
    ∧ files (world (_ssh_exec echo_host "first" 0 left_by_constructor).2)
        !! ("hass_remote_mgmt." +:+ now +:+ ".log")
      = Some (log_text ["first" +:+ chr LF]).
Proof.
  eapply (log_file_named_after_timestamp echo_host "first" 0
            left_by_constructor); by vm_compute.
Defined.

(** ** What a backup that returns has done *)

Lemma write_lines_files (command f : string) (stdout : list string) :
  ∀ (lines_count : nat) (st : State) (content : string),
    files (world st) !! f = Some content →
    files (world (write_lines command f stdout lines_count st).2)
    = <[f := content +:+ log_text stdout]> (files (world st)).
Proof.
  induction stdout as [|line rest IH]; intros lines_count st content Hf.
  - cbn. rewrite append_nil_r. by rewrite insert_id.
  - cbn [write_lines]. run.
    erewrite IH; [|cbn; apply lookup_insert_eq].
    cbn. rewrite Hf, insert_insert_eq. cbn. by rewrite append_assoc.
Qed.

Lemma with_log_file_files (command : string) (stdout : list string)
    (st st0 : State) (name : string) :
  _log_file_name st = (inr name, st0) →
  files (world (with_log_file (λ f, write_lines command f stdout 0%nat) st).2)
  = <[name := log_text stdout]> (files (world st)).
Proof.
  intros Hname. unfold with_log_file.
  rewrite (run_bind_ok _ _ _ _ _ Hname). run. unfold try_finally.
  pose proof (write_lines_files command name stdout 0%nat
                {| self := self st0;
                   world := set_files (<[name:=EmptyString]> (files (world st0)))
                              (world st0) |} EmptyString) as Hfiles.
  destruct (write_lines_run command name stdout 0%nat
              {| self := self st0;
                 world := set_files (<[name:=EmptyString]> (files (world st0)))
                            (world st0) |} EmptyString) as (st' & Hrun & _);
    [apply lookup_insert_eq|].
  rewrite Hrun in Hfiles |- *. cbn in Hfiles |- *.
  rewrite Hfiles by apply lookup_insert_eq. rewrite insert_insert_eq.
  pose proof (keeps_files__log_file_name st) as Hkeep.
  rewrite Hname in Hkeep. cbn in Hkeep. by rewrite Hkeep.
Qed.

(** The name a session without a log file name gives its log file. *)
Lemma _log_file_name_fresh (st : State) (now : string) :
  _log_file_name_cache (self st) = None →
  _now_iso8601_cache (self st) = Some now →
  _log_file_name st
  = (inr ("hass_remote_mgmt." +:+ now +:+ ".log"),
     {| self := set_log_file_name_cache
                  ("hass_remote_mgmt." +:+ now +:+ ".log") (self st);
        world := world st |}).
Proof.
  intros Hlog Hnow. unfold _log_file_name. run. rewrite Hlog.
  by rewrite (run_bind_ok _ _ _ _ _ (_now_iso8601_cached st now Hnow)).
Qed.

(** A command that was sent was answered by the host, at the history the
    request was made in. *)
Lemma send_command_answer (host : Host) (command : string) (st st1 : State)
    (stdout : list string) (exit_status : Z) :
  send_command host command st = (inr (stdout, exit_status), st1) →
  ∃ pre,
    (pre = []
     ∨ (∃ h u, pre = [Connect h u]) ∧ _ssh_client_cache (self st) = None)
    ∧ exec_answer host (requests (world st) ++ pre) command
      = inr (stdout, exit_status)
    ∧ requests (world st1)
      = requests (world st) ++ pre ++ [ExecCommand command]
    ∧ is_Some (_ssh_client_cache (self st1)).
Proof.
  unfold send_command, logger_info. rewrite run_bind.
  set (msg := "Executing " +:+ command +:+ " command").
  destruct (never_raises_log INFO msg st) as ([] & st0 & Hlog).
  pose proof (offline_log INFO msg st) as Hreq0.
  pose proof (log_keeps_self INFO msg st) as Hself0.
  rewrite Hlog in Hreq0, Hself0 |- *. cbn [snd] in Hreq0, Hself0.
  unfold try_except_SSHException. rewrite run_bind.
  destruct (_ssh_client_effects host st0) as (pre & Hreq1 & Hpre & Hcached).
  rewrite Hself0, Hreq0 in *.
  destruct (_ssh_client host st0) as [[e|client] st1']; cbn [fst snd] in *.
  { by destruct (@reraise_effects (list string * Z) e st1') as (? & -> & _). }
  specialize (Hcached client eq_refl).
  unfold exec_command. run.
  destruct (exec_answer host (requests (world st1')) command) as [e|r]
    eqn:Hanswer.
  - cbn [raise].
    match goal with
    | |- context [if is_SSHException e then _ else (_, ?s)] =>
        by destruct (@reraise_effects (list string * Z) e s) as (? & -> & _)
    end.
  - run. intros [= -> <-]. exists pre. cbn.
    rewrite Hreq1 in Hanswer. rewrite Hreq1, <- app_assoc, Hcached. eauto.
Qed.

(** A command that [_ssh_exec] returns from: the host answered with an exit
    status within the threshold, and the log file, under the one name of
    the session, holds the output. *)
Lemma _ssh_exec_returns (host : Host) (c : string) (k : Z) (st st' : State) :
  _ssh_exec host c k st = (inr tt, st') →
  ∃ pre stdout exit_status name,
    (pre = []
     ∨ (∃ h u, pre = [Connect h u]) ∧ _ssh_client_cache (self st) = None)
    ∧ exec_answer host (requests (world st) ++ pre) c
      = inr (stdout, exit_status)
    ∧ exit_status ≤ k
    ∧ requests (world st') = requests (world st) ++ pre ++ [ExecCommand c]
    ∧ is_Some (_ssh_client_cache (self st'))
    ∧ _log_file_name_cache (self st') = Some name
    ∧ (∀ earlier, _log_file_name_cache (self st) = Some earlier →
                  earlier = name)
    ∧ (∀ now, _log_file_name_cache (self st) = None →
              _now_iso8601_cache (self st) = Some now →
              name = "hass_remote_mgmt." +:+ now +:+ ".log")
    ∧ files (world st') = <[name := log_text stdout]> (files (world st))
    ∧ keeping_caches st st'.
Proof.
  intros Hrun.
  pose proof (_ssh_exec_keeping_caches host c k st) as Hkeep.
  destruct (send_command host c st) as [[e|[stdout exit_status]] st1]
    eqn:Hsend.
  { unfold _ssh_exec in Hrun. by rewrite (run_bind_raise _ _ _ _ _ Hsend) in Hrun. }
  destruct (send_command_answer _ _ _ _ _ _ Hsend)
    as (pre & Hpre & Hanswer & Hreq & Hclient).
  destruct (never_raises__log_file_name st1) as (name & st2 & Hname).
  destruct (_ssh_exec_run host c k _ _ _ _ _ _ Hsend Hname)
    as (st'' & Hrun' & Hreq' & _ & Hself).
  pose proof (with_log_file_files c stdout st1 st2 name Hname) as Hfiles.
  rewrite Hrun in Hrun', Hkeep. cbn [snd] in Hkeep.
  case_bool_decide as Hstatus; [done|]. injection Hrun' as <-.
  destruct (_log_file_name_cached _ _ _ Hname) as [Hcached Hearlier].
  pose proof (send_command_keeps_log_file_name host c st) as Hlogkeep.
  pose proof (send_command_keeping_caches host c st) as Hkeep1.
  pose proof (send_command_keeping_files host c st) as Hfiles1.
  unfold keeping_files in Hfiles1.
  rewrite Hsend in Hlogkeep, Hkeep1, Hfiles1. cbn [snd] in *.
  exists pre, stdout, exit_status, name.
  split; [done|]. split; [done|]. split; [lia|]. split; [congruence|].
  split.
  { destruct Hclient as [client Hclient].
    pose proof (_log_file_name_keeping_client st1) as Hk.
    unfold keeping_client in Hk. rewrite Hname in Hk. cbn in Hk.
    exists client. by rewrite Hself, Hk. }
  split; [by rewrite Hself|]. split.
  { intros earlier He. apply Hearlier. by rewrite Hlogkeep. }
  split.
  { intros now Hnone Hnow. destruct Hkeep1 as (_ & _ & Hn & _).
    rewrite (_log_file_name_fresh st1 now) in Hname;
      [by injection Hname as <- _|by rewrite Hlogkeep|by apply Hn]. }
  split; [|done].
  (* the files: the log file alone is written, after the command is sent *)
  unfold _ssh_exec in Hrun.
  rewrite (run_bind_ok _ _ _ _ _ Hsend) in Hrun. cbv beta iota in Hrun.
  rewrite run_bind in Hrun.
  destruct (with_log_file (λ f, write_lines c f stdout 0%nat) st1)
    as [[e|[]] st3]; [done|].
  cbn [snd] in Hfiles. rewrite bool_decide_eq_false_2 in Hrun by done.
  pose proof (keeps_files_log INFO ("Command " +:+ c +:+ " Executed") st3)
    as Hlogfiles.
  unfold logger_info in Hrun. rewrite Hrun in Hlogfiles. cbn in Hlogfiles.
  by rewrite Hlogfiles, Hfiles, Hfiles1.
Qed.

(** A download that [_scp] returns from: the host answered the request, and
    the one file written is [dest], with the bytes of the answer. *)
Lemma _scp_returns (host : Host) (src dest : string) (st st' : State) :
  _scp host src dest st = (inr tt, st') →
  ∃ pre calls content,
    (pre = []
     ∨ (∃ h u, pre = [Connect h u]) ∧ _ssh_client_cache (self st) = None)
    ∧ get_answer host (requests (world st) ++ pre) src = inr (calls, content)
    ∧ requests (world st') = requests (world st) ++ pre ++ [SftpGet src dest]
    ∧ files (world st') = <[dest := content]> (files (world st))
    ∧ keeping_caches st st'.
Proof.
  intros Hrun.
  pose proof (_scp_keeping_caches host src dest st) as Hkeep.
  rewrite Hrun in Hkeep. cbn [snd] in Hkeep.
  revert Hrun. unfold _scp, logger_info. rewrite run_bind.
  set (msg := "Copying " +:+ chr DQUOTE +:+ src +:+ chr DQUOTE +:+ " file").
  destruct (never_raises_log INFO msg st) as ([] & st0 & Hlog).
  pose proof (offline_log INFO msg st) as Hreq0.
  pose proof (keeps_files_log INFO msg st) as Hfiles0.
  pose proof (log_keeps_self INFO msg st) as Hself0.
  rewrite Hlog in Hreq0, Hfiles0, Hself0 |- *.
  cbn [snd] in Hreq0, Hfiles0, Hself0.
  rewrite run_bind.
  destruct (_ssh_client_effects host st0) as (pre & Hreq1 & Hpre & _).
  pose proof (_ssh_client_keeping_files host st0) as Hfiles1.
  unfold keeping_files in Hfiles1.
  destruct (_ssh_client host st0) as [[e|client] st1]; [done|].
  cbn [fst snd] in *. rewrite run_bind. unfold sftp_get. run.
  destruct (get_answer host (requests (world st1)) src)
    as [e|[calls content]] eqn:Hanswer; [done|].
  rewrite run_bind.
  match goal with
  | |- context [callbacks calls ?s] =>
      pose proof (callbacks_asking_nothing calls s) as Hreq2;
      pose proof (callbacks_keeping_files calls s) as Hfiles2;
      destruct (callbacks calls s) as [[e|[]] st2]; [done|]
  end.
  unfold asking_nothing, keeping_files in Hreq2, Hfiles2.
  cbn in Hreq2, Hfiles2. run.
  intros [= <-]. exists pre, calls, content. cbn.
  rewrite Hreq1, Hreq0 in Hanswer. rewrite Hself0 in Hpre.
  rewrite Hreq2, Hfiles2, Hfiles1, Hfiles0, Hreq1, Hreq0, <- app_assoc.
  done.
Qed.

Lemma _now_iso8601_keeps_log_file_name (st : State) :
  _log_file_name_cache (self (_now_iso8601 st).2)
  = _log_file_name_cache (self st).
Proof.
  unfold _now_iso8601. run.
  by destruct (_now_iso8601_cache (self st)).
Qed.

(** When [backup] returns, every step succeeded: the host answered the
    archive command with an exit status of at most 1, the compression and
    the cleanup with an exit status of at most 0 (the test is
    [exit_status > max_allowed_return_code], so a negative status passes),
    each at the history of the requests before it, and answered the
    download.  The working directory differs from what it was
    in two files: the archive, with the bytes the host sent, and the one log
    file of the session, which holds the output of the cleanup alone; on a
    session that had not named its log file the name is built from the
    timestamp of the commands. *)
Theorem backup_returns_after_every_step (host : Host) (st st' : State) :
  backup host st = (inr tt, st') →
  ∃ now pre out1 s1 out2 s2 calls content out4 s4 name,
    (pre = []
     ∨ (∃ h u, pre = [Connect h u]) ∧ _ssh_client_cache (self st) = None)
    ∧ _now_iso8601_cache (self st') = Some now
    ∧ exec_answer host (requests (world st) ++ pre) (archive_command now)
      = inr (out1, s1)
    ∧ s1 ≤ 1
    ∧ exec_answer host
        (requests (world st) ++ pre ++ take 1 (backup_steps now))
        (compress_command now)
      = inr (out2, s2)
    ∧ s2 ≤ 0
    ∧ get_answer host
        (requests (world st) ++ pre ++ take 2 (backup_steps now))
        (fetch_src now)
      = inr (calls, content)
    ∧ exec_answer host
        (requests (world st) ++ pre ++ take 3 (backup_steps now))
        (cleanup_command now)
      = inr (out4, s4)
    ∧ s4 ≤ 0
    ∧ requests (world st') = requests (world st) ++ pre ++ backup_steps now
    ∧ _log_file_name_cache (self st') = Some name
    ∧ (_log_file_name_cache (self st) = None →
       name = "hass_remote_mgmt." +:+ now +:+ ".log")
    ∧ files (world st')
      = <[name := log_text out4]>
          (<[fetch_dest now := content]> (files (world st))).
Proof.
  unfold backup, logger_info. rewrite run_bind.
  destruct (never_raises_log INFO "Entering in backup mode" st)
    as ([] & st0 & Hlog).
  pose proof (offline_log INFO "Entering in backup mode" st) as Hreq0.
  pose proof (keeps_files_log INFO "Entering in backup mode" st) as Hfiles0.
  pose proof (log_keeps_self INFO "Entering in backup mode" st) as Hself0.
  rewrite Hlog in Hreq0, Hfiles0, Hself0 |- *.
  cbn [snd] in Hreq0, Hfiles0, Hself0.
  destruct (_now_iso8601_returns st0) as (now & st1 & Hnow & Hcached).
  pose proof (offline__now_iso8601 st0) as Hreq1.
  pose proof (keeps_files__now_iso8601 st0) as Hfiles1.
  pose proof (_now_iso8601_keeping_client st0) as Hclient1.
  pose proof (_now_iso8601_keeps_log_file_name st0) as Hlog1.
  unfold keeping_client in Hclient1.
  rewrite Hnow in Hreq1, Hfiles1, Hclient1, Hlog1.
  cbn [snd] in Hreq1, Hfiles1, Hclient1, Hlog1.
  rewrite (run_bind_ok _ _ _ _ _ Hnow). rewrite run_bind.
  (* the archive *)
  destruct (_ssh_exec host (archive_command now) 1 st1) as [[e|[]] st2]
    eqn:Hrun1; [done|].
  destruct (_ssh_exec_returns _ _ _ _ _ Hrun1)
    as (pre & out1 & s1 & name & Hpre & Hans1 & Hs1 & Hreq2 & Hclient2
        & Hname2 & _ & Hfresh & Hfiles2 & Hkeep2).
  assert (Hnow2 : _now_iso8601_cache (self st2) = Some now)
    by (by apply Hkeep2).
  rewrite (run_bind_ok _ _ _ _ _ (_now_iso8601_cached st2 now Hnow2)).
  rewrite run_bind.
  (* the compression *)
  destruct (_ssh_exec host (compress_command now) 0 st2) as [[e|[]] st3]
    eqn:Hrun2; [done|].
  destruct (_ssh_exec_returns _ _ _ _ _ Hrun2)
    as (pre2 & out2 & s2 & name2 & Hpre2 & Hans2 & Hs2 & Hreq3 & Hclient3
        & Hname3 & Hearlier3 & _ & Hfiles3 & Hkeep3).
  destruct Hpre2 as [->|[_ Hnone]];
    [|rewrite Hnone in Hclient2; by destruct Hclient2].
  specialize (Hearlier3 name Hname2) as <-.
  assert (Hnow3 : _now_iso8601_cache (self st3) = Some now)
    by (by apply Hkeep3).
  rewrite !(run_bind_ok _ _ _ _ _ (_now_iso8601_cached st3 now Hnow3)).
  rewrite run_bind.
  (* the download *)
  destruct (_scp host (fetch_src now) (fetch_dest now) st3) as [[e|[]] st4]
    eqn:Hrun3; [done|].
  destruct (_scp_returns _ _ _ _ _ Hrun3)
    as (pre3 & calls & content & Hpre3 & Hans3 & Hreq4 & Hfiles4 & Hkeep4).
  destruct Hpre3 as [->|[_ Hnone]];
    [|rewrite Hnone in Hclient3; by destruct Hclient3].
  assert (Hnow4 : _now_iso8601_cache (self st4) = Some now)
    by (by apply Hkeep4).
  assert (Hname4 : _log_file_name_cache (self st4) = Some name)
    by (by apply Hkeep4).
  assert (Hclient4 : is_Some (_ssh_client_cache (self st4))).
  { destruct Hclient3 as [client Hclient3]. exists client. by apply Hkeep4. }
  rewrite (run_bind_ok _ _ _ _ _ (_now_iso8601_cached st4 now Hnow4)).
  (* the cleanup *)
  intros Hrun4.
  destruct (_ssh_exec_returns _ _ _ _ _ Hrun4)
    as (pre4 & out4 & s4 & name4 & Hpre4 & Hans4 & Hs4 & Hreq5 & _
        & Hname5 & Hearlier5 & _ & Hfiles5 & Hkeep5).
  destruct Hpre4 as [->|[_ Hnone]];
    [|rewrite Hnone in Hclient4; by destruct Hclient4].
  specialize (Hearlier5 name Hname4) as <-.
  rewrite app_nil_r in Hans2, Hans3, Hans4.
  rewrite Hreq1, Hreq0 in Hans1, Hreq2. rewrite Hclient1, Hself0 in Hpre.
  rewrite Hreq2 in Hans2, Hreq3. rewrite Hreq3 in Hans3, Hreq4.
  rewrite Hreq4 in Hans4, Hreq5.
  rewrite <- !app_assoc in Hans3. rewrite <- !app_assoc in Hans4.
  rewrite <- !app_assoc in Hreq5. cbn [app] in Hans3, Hans4, Hreq5.
  exists now, pre, out1, s1, out2, s2, calls, content, out4, s4, name.
  unfold backup_steps. cbn [take].
  split; [done|]. split; [by apply Hkeep5|].
  split; [done|]. split; [done|]. split; [done|]. split; [done|].
  split; [done|]. split; [done|]. split; [done|]. split; [done|].
  split; [done|]. split.
  { intros Hnone. apply Hfresh; [by rewrite Hlog1, Hself0|done]. }
  rewrite Hfiles5, Hfiles4, Hfiles3, Hfiles2, Hfiles1, Hfiles0.
  rewrite insert_insert_eq.
  destruct (decide (name = fetch_dest now)) as [->|Hne].
  - by rewrite !insert_insert_eq.
  - rewrite (insert_insert_ne (files (world st)) (fetch_dest now) name)
      by done.
    by rewrite insert_insert_eq.
Qed.

(** On [obliging_host], from a session whose [_progress_bar] is [None]. *)
Lemma backup_returns_after_every_step_witness :
  ∃ now pre out1 s1 out2 s2 calls content out4 s4 name,
    (pre = []
     ∨ (∃ h u, pre = [Connect h u])
       ∧ _ssh_client_cache (self with_progress_bar_None) = None)
    ∧ _now_iso8601_cache (self after_backup) = Some now
    ∧ exec_answer obliging_host
        (requests (world with_progress_bar_None) ++ pre)
        (archive_command now)
      = inr (out1, s1)
    ∧ s1 ≤ 1
    ∧ exec_answer obliging_host
        (requests (world with_progress_bar_None)
           ++ pre ++ take 1 (backup_steps now))
        (compress_command now)
      = inr (out2, s2)
    ∧ s2 ≤ 0
    ∧ get_answer obliging_host
        (requests (world with_progress_bar_None)
           ++ pre ++ take 2 (backup_steps now))
        (fetch_src now)
      = inr (calls, content)
    ∧ exec_answer obliging_host
        (requests (world with_progress_bar_None)
           ++ pre ++ take 3 (backup_steps now))
        (cleanup_command now)
      = inr (out4, s4)
    ∧ s4 ≤ 0
    ∧ requests (world after_backup)
      = requests (world with_progress_bar_None) ++ pre ++ backup_steps now
    ∧ _log_file_name_cache (self after_backup) = Some name
    ∧ (_log_file_name_cache (self with_progress_bar_None) = None →
       name = "hass_remote_mgmt." +:+ now +:+ ".log")
    ∧ files (world after_backup)
      = <[name := log_text out4]>
          (<[fetch_dest now := content]>
             (files (world with_progress_bar_None))).
Proof.
  apply (backup_returns_after_every_step obliging_host
           with_progress_bar_None after_backup).
  by vm_compute.
Defined.

(** ** The order of the requests of [backup] *)

(** A command on a session that has a connection is sent without asking for
    another one. *)
Lemma _ssh_exec_asks_connected (host : Host) (c : string) (k : Z)
    (st : State) :
  is_Some (_ssh_client_cache (self st)) →
  ∃ sent,
    requests (world (_ssh_exec host c k st).2) = requests (world st) ++ sent
    ∧ (sent = [] ∨ sent = [ExecCommand c]).
Proof.
  intros [client Hclient].
  destruct (_ssh_exec_asks host c k st) as (pre & sent & Hreq & Hpre & Hsent & _).
  destruct Hpre as [->|[_ Hnone]]; [|congruence]. by exists sent.
Qed.

Lemma _scp_asks_connected (host : Host) (src dest : string) (st : State) :
  is_Some (_ssh_client_cache (self st)) →
  ∃ sent,
    requests (world (_scp host src dest st).2) = requests (world st) ++ sent
    ∧ (sent = [] ∨ sent = [SftpGet src dest]).
Proof.
  intros [client Hclient].
  destruct (_scp_asks host src dest st) as (pre & sent & Hreq & Hpre & Hsent & _).
  destruct Hpre as [->|[_ Hnone]]; [|congruence]. by exists sent.
Qed.

(** Whatever the host answers, the requests of [backup] are a connection,
    when the session has none, and then the first of the four steps
    (archive, compress, download, cleanup), in this order, all built from the
    one timestamp of the session.  A step is sent only after the host has
    accepted the steps before it: the compression only after the archive
    command ended with an exit status of at most 1, the download only after
    the compression ended with an exit status of at most 0, the cleanup only
    after the host sent the file.  When [backup] returns all four were sent,
    and the cleanup ended with an exit status of at most 0. *)
Theorem backup_requests_in_order (host : Host) (st : State) :
  ∃ now pre sent,
    requests (world (backup host st).2) = requests (world st) ++ pre ++ sent
    ∧ (pre = []
       ∨ (∃ h u, pre = [Connect h u]) ∧ _ssh_client_cache (self st) = None)
    ∧ sent `prefix_of` backup_steps now
    ∧ ((backup host st).1 = inr tt → sent = backup_steps now)
    ∧ _now_iso8601_cache (self (backup host st).2) = Some now
    ∧ ((1 < length sent)%nat →
       accepts host (requests (world st) ++ pre) (archive_command now) 1)
    ∧ ((2 < length sent)%nat →
       accepts host
         (requests (world st) ++ pre ++ take 1 (backup_steps now))
         (compress_command now) 0)
    ∧ ((3 < length sent)%nat →
       delivers host
         (requests (world st) ++ pre ++ take 2 (backup_steps now))
         (fetch_src now))
    ∧ ((backup host st).1 = inr tt →
       accepts host
         (requests (world st) ++ pre ++ take 3 (backup_steps now))
         (cleanup_command now) 0).
Proof.
  unfold backup, logger_info. rewrite run_bind.
  destruct (never_raises_log INFO "Entering in backup mode" st)
    as ([] & st0 & Hlog).
  pose proof (offline_log INFO "Entering in backup mode" st) as Hreq0.
  pose proof (log_keeps_self INFO "Entering in backup mode" st) as Hself0.
  rewrite Hlog in Hreq0, Hself0 |- *. cbn [snd] in Hreq0, Hself0.
  destruct (_now_iso8601_returns st0) as (now & st1 & Hnow & Hcached).
  pose proof (offline__now_iso8601 st0) as Hreq1.
  pose proof (_now_iso8601_keeping_client st0) as Hclient1.
  unfold keeping_client in Hclient1.
  rewrite Hnow in Hreq1, Hclient1. cbn [snd] in Hreq1, Hclient1.
  rewrite (run_bind_ok _ _ _ _ _ Hnow). rewrite run_bind.
  exists now.
  (* the archive *)
  pose proof (_ssh_exec_keeping_caches host (archive_command now) 1 st1)
    as Hkeep2.
  destruct (_ssh_exec host (archive_command now) 1 st1) as [[e|[]] st2]
    eqn:Hrun1; cbn [snd] in Hkeep2.
  { destruct (_ssh_exec_asks host (archive_command now) 1 st1)
      as (pre & sent & Hreq & Hpre & Hsent & _).
    rewrite Hrun1 in Hreq. cbn [snd] in Hreq.
    rewrite Hreq1, Hreq0 in Hreq. rewrite Hclient1, Hself0 in Hpre.
    exists pre, sent. cbn [fst snd].
    split; [done|]. split; [done|]. split.
    { destruct Hsent as [->| ->]; [apply prefix_nil|].
      by apply (prefix_app_r [_] [_] [_; _; _]). }
    split; [done|]. split; [by apply Hkeep2|].
    destruct Hsent as [->| ->]; cbn [length];
      (split; [lia|]); (split; [lia|]); (split; [lia|]); done. }
  destruct (_ssh_exec_returns _ _ _ _ _ Hrun1)
    as (pre & out1 & s1 & name & Hpre & Hans1 & Hs1 & Hreq2 & Hclient2 & _).
  rewrite Hreq1, Hreq0 in Hans1, Hreq2. rewrite Hclient1, Hself0 in Hpre.
  assert (Harchive : accepts host (requests (world st) ++ pre)
                       (archive_command now) 1) by (by exists out1, s1).
  assert (Hnow2 : _now_iso8601_cache (self st2) = Some now)
    by (by apply Hkeep2).
  rewrite (run_bind_ok _ _ _ _ _ (_now_iso8601_cached st2 now Hnow2)).
  rewrite run_bind. exists pre.
  (* the compression *)
  pose proof (_ssh_exec_keeping_caches host (compress_command now) 0 st2)
    as Hkeep3.
  destruct (_ssh_exec host (compress_command now) 0 st2) as [[e|[]] st3]
    eqn:Hrun2; cbn [snd] in Hkeep3.
  { destruct (_ssh_exec_asks_connected host (compress_command now) 0 st2
                Hclient2) as (sent & Hreq & Hsent).
    rewrite Hrun2 in Hreq. cbn [snd] in Hreq. rewrite Hreq2 in Hreq.
    exists (ExecCommand (archive_command now) :: sent). cbn [fst snd].
    split; [by rewrite Hreq, <- !app_assoc|]. split; [done|]. split.
    { apply prefix_cons. destruct Hsent as [->| ->]; [apply prefix_nil|].
      by apply (prefix_app_r [_] [_] [_; _]). }
    split; [done|]. split; [by apply Hkeep3|].
    destruct Hsent as [->| ->]; cbn [length];
      (split; [by (lia || intros _)|]); (split; [lia|]); (split; [lia|]);
      done. }
  destruct (_ssh_exec_returns _ _ _ _ _ Hrun2)
    as (pre2 & out2 & s2 & name2 & Hpre2 & Hans2 & Hs2 & Hreq3 & Hclient3
        & _).
  destruct Hpre2 as [->|[_ Hnone]];
    [|rewrite Hnone in Hclient2; by destruct Hclient2].
  rewrite app_nil_r in Hans2. rewrite Hreq2 in Hans2, Hreq3.
  rewrite <- !app_assoc in Hreq3. cbn [app] in Hreq3.
  assert (Hcompress :
    accepts host (requests (world st) ++ pre ++ take 1 (backup_steps now))
      (compress_command now) 0) by (by exists out2, s2).
  assert (Hnow3 : _now_iso8601_cache (self st3) = Some now)
    by (by apply Hkeep3).
  rewrite !(run_bind_ok _ _ _ _ _ (_now_iso8601_cached st3 now Hnow3)).
  rewrite run_bind.
  (* the download *)
  pose proof (_scp_keeping_caches host (fetch_src now) (fetch_dest now) st3)
    as Hkeep4.
  destruct (_scp host (fetch_src now) (fetch_dest now) st3) as [[e|[]] st4]
    eqn:Hrun3; cbn [snd] in Hkeep4.
  { destruct (_scp_asks_connected host (fetch_src now) (fetch_dest now) st3
                Hclient3) as (sent & Hreq & Hsent).
    rewrite Hrun3 in Hreq. cbn [snd] in Hreq. rewrite Hreq3 in Hreq.
    exists (ExecCommand (archive_command now)
              :: ExecCommand (compress_command now) :: sent).
    cbn [fst snd].
    split; [by rewrite Hreq, <- !app_assoc|]. split; [done|]. split.
    { do 2 apply prefix_cons. destruct Hsent as [->| ->]; [apply prefix_nil|].
      by apply (prefix_app_r [_] [_] [_]). }
    split; [done|]. split; [by apply Hkeep4|].
    destruct Hsent as [->| ->]; cbn [length];
      (split; [by intros _|]); (split; [by (lia || intros _)|]);
      (split; [lia|]); done. }
  destruct (_scp_returns _ _ _ _ _ Hrun3)
    as (pre3 & calls & content & Hpre3 & Hans3 & Hreq4 & _ & _).
  destruct Hpre3 as [->|[_ Hnone]];
    [|rewrite Hnone in Hclient3; by destruct Hclient3].
  rewrite app_nil_r in Hans3. rewrite Hreq3 in Hans3, Hreq4.
  rewrite <- !app_assoc in Hreq4. cbn [app] in Hreq4.
  assert (Hdownload :
    delivers host (requests (world st) ++ pre ++ take 2 (backup_steps now))
      (fetch_src now)) by (by exists calls, content).
  assert (Hnow4 : _now_iso8601_cache (self st4) = Some now)
    by (by apply Hkeep4).
  assert (Hclient4 : is_Some (_ssh_client_cache (self st4))).
  { destruct Hclient3 as [client Hclient3]. exists client. by apply Hkeep4. }
  rewrite (run_bind_ok _ _ _ _ _ (_now_iso8601_cached st4 now Hnow4)).
  (* the cleanup *)
  pose proof (_ssh_exec_keeping_caches host (cleanup_command now) 0 st4)
    as Hkeep5.
  destruct (_ssh_exec host (cleanup_command now) 0 st4) as [[e|[]] st5]
    eqn:Hrun4; cbn [snd] in Hkeep5.
  { destruct (_ssh_exec_asks_connected host (cleanup_command now) 0 st4
                Hclient4) as (sent & Hreq & Hsent).
    rewrite Hrun4 in Hreq. cbn [snd] in Hreq. rewrite Hreq4 in Hreq.
    exists (ExecCommand (archive_command now)
              :: ExecCommand (compress_command now)
              :: SftpGet (fetch_src now) (fetch_dest now) :: sent).
    cbn [fst snd].
    split; [by rewrite Hreq, <- !app_assoc|]. split; [done|]. split.
    { do 3 apply prefix_cons. by destruct Hsent as [->| ->];
        [apply prefix_nil|]. }
    split; [done|]. split; [by apply Hkeep5|].
    destruct Hsent as [->| ->]; cbn [length];
      (split; [by intros _|]); (split; [by intros _|]);
      (split; [by (lia || intros _)|]); done. }
  destruct (_ssh_exec_returns _ _ _ _ _ Hrun4)
    as (pre4 & out4 & s4 & name4 & Hpre4 & Hans4 & Hs4 & Hreq5 & _).
  destruct Hpre4 as [->|[_ Hnone]];
    [|rewrite Hnone in Hclient4; by destruct Hclient4].
  rewrite app_nil_r in Hans4. rewrite Hreq4 in Hans4, Hreq5.
  rewrite <- !app_assoc in Hreq5. cbn [app] in Hreq5.
  exists (backup_steps now). cbn [fst snd].
  split; [done|]. split; [done|]. split; [done|]. split; [done|].
  split; [by apply Hkeep5|].
  split; [by intros _|]. split; [by intros _|]. split; [by intros _|].
  intros _. by exists out4, s4.
Qed.
